(** * tomo-tsp: wave-plate tomography ordering as a TSP

    A shallow embedding of the executable cells of [wave_plate_tsp.ipynb]
    ([ANGLES_6s], [adj_mat], [HEADER], [save_tsp], [get_projs],
    [cycle_length], the speedup and reduction cells, [nqubit_angles], the
    loops of cells 48 and 54),
    followed by the properties of the design document checked against it.

    Numbers.  The notebook computes on NumPy [float64] arrays.  Every angle
    of the pipeline is a small multiple of 22.5, on which subtraction,
    absolute value, maximum, doubling and addition are exact in binary
    floating point, so array elements are modelled as rationals [Q] and
    compared with [==].  Subtraction and addition are exact in the model
    and rounded in the code: properties that depend on the order of
    additions or on the absence of rounding are stated for the matrices
    of the pipeline only.  A number beyond the [float64] range is an
    infinity in the code; the model keeps the number and tests the range
    where the code converts it ([Serializer.finite]).  What a [float64]
    division does at a zero divisor is modelled separately
    ([np_float64]).

    Exceptions.  A Python call either returns or raises; [result] records
    which, with the class of the exception raised. *)

From Stdlib Require Import Ascii String DecimalString.
From Stdlib Require Import List ZArith QArith Qabs Qminmax Lia Lqa Bool.
From Stdlib Require Import Permutation.
From Stdlib Require DecimalPos.
Import ListNotations.

Set Implicit Arguments.

(* ================================================================== *)
(** ** Python values, exceptions and sequences *)

Module Py.

(** The exception classes the modelled code can raise. *)
Inductive exn : Set :=
| IndexError            (* sequence or array index out of range *)
| ValueError            (* ill-formed argument of a library call *)
| ZeroDivisionError     (* division of Python's own numbers by zero *)
| FileNotFoundError     (* [open] on a name that is not on disk *)
| OverflowError.        (* a number too large for its destination *)

Inductive result (A : Type) : Type :=
| Ok (a : A)
| Raise (e : exn).

Arguments Ok {A} a.
Arguments Raise {A} e.

Definition bind {A B} (m : result A) (k : A -> result B) : result B :=
  match m with
  | Ok a => k a
  | Raise e => Raise e
  end.

(** A comprehension or [map] whose body may raise: elements are
    evaluated left to right and the first exception escapes. *)
Fixpoint mapM {A B} (f : A -> result B) (l : list A) : result (list B) :=
  match l with
  | [] => Ok []
  | x :: r =>
      bind (f x) (fun y => bind (mapM f r) (fun ys => Ok (y :: ys)))
  end.

(** [len(l)] as a Python integer. *)
Definition len {A} (l : list A) : Z := Z.of_nat (length l).

(** [l[i]] on a list, a [range] or one axis of an array: a negative
    index counts from the end, anything outside [-len, len) raises
    [IndexError]. *)
Definition getitem {A} (l : list A) (i : Z) : result A :=
  let k := (if i <? 0 then i + len l else i)%Z in
  if ((0 <=? k) && (k <? len l))%Z then
    match nth_error l (Z.to_nat k) with
    | Some x => Ok x
    | None => Raise IndexError
    end
  else Raise IndexError.

(** [range(k)]: 0, 1, ..., k-1, empty when [k <= 0]. *)
Definition range (k : Z) : list Z :=
  map Z.of_nat (seq 0 (Z.to_nat k)).

(** The builtin [sum]: left fold of [+] from the integer 0.  The code
    adds [float64] numbers, rounding each sum; the model adds exactly,
    which is the same for the small multiples of 22.5 of the pipeline. *)
Definition sum (l : list Q) : Q := fold_left Qplus l 0.

End Py.

Import Py.

Declare Scope py_scope.
Delimit Scope py_scope with py.
Notation "x <- m ;; k" := (bind m (fun x => k))
  (at level 61, m at next level, right associativity) : py_scope.
Open Scope py_scope.

(** A two-dimensional array, row-major. *)
Definition matrix : Type := list (list Q).

(* ================================================================== *)
(** ** Cycle evaluation (cells 32, 38, 40) *)

Module Evaluator.

(** [[[path[n], path[n+1]] for n in range(len(path) - 1)]] followed by
    [edges += [[path[-1], path[0]]]]. *)
Definition edges_of (path : list Z) : result (list (Z * Z)) :=
  edges <- mapM (fun n => a <- getitem path n ;;
                          b <- getitem path (n + 1) ;;
                          Ok (a, b))
                (range (len path - 1)) ;;
  a <- getitem path (-1) ;;
  b <- getitem path 0 ;;
  Ok (edges ++ [(a, b)]).

(** [adj_matrix[edge[0]][edge[1]]]. *)
Definition weight (adj_matrix : matrix) (edge : Z * Z) : result Q :=
  row <- getitem adj_matrix (fst edge) ;;
  getitem row (snd edge).

Definition cycle_length (adj_matrix : matrix) (path : list Z) : result Q :=
  edges <- edges_of path ;;
  ws <- mapM (weight adj_matrix) edges ;;
  Ok (sum ws).

(** The value of a [float64] expression: a finite number, an infinity
    or not-a-number. *)
Inductive np_float64 : Set :=
| Finite (q : Q)
| Inf (negative : bool)
| NaN.

(** [a / b] on [numpy.float64] scalars.  A zero divisor does not raise:
    NumPy emits a [RuntimeWarning] and the quotient is an infinity with
    the sign of the dividend, or not-a-number when the dividend is zero
    too.  (The divisor is a cycle length, a sum of absolute values, so
    it is never a negative zero.) *)
Definition truediv (a b : Q) : np_float64 :=
  if Qeq_bool b 0 then
    if Qeq_bool a 0 then NaN
    else Inf (negb (Qle_bool 0 a))
  else Finite (a / b).

(** [speedup = conv_cycle / tsp_cycle], both operands being results of
    [cycle_length] on a float array, hence [numpy.float64]. *)
Definition speedup (conv_cycle tsp_cycle : Q) : result np_float64 :=
  Ok (truediv conv_cycle tsp_cycle).

(** [reduction = conv_cycle - tsp_cycle]. *)
Definition reduction (conv_cycle tsp_cycle : Q) : Q :=
  conv_cycle - tsp_cycle.

End Evaluator.

(* ================================================================== *)
(** ** Configuration space (cells 7, 43) *)

Module Builder.

Definition ANGLES_6s : matrix :=
  [[0; 0];
   [45; 0];
   [22.5; 0];
   [-22.5; 0];
   [0; 45];
   [0; -45]]%Q.

(** [itertools.product(pool, repeat=n)], as the library documents it:
    [result = [[]]], then [n] times
    [result = [x+[y] for x in result for y in pool]]. *)
Fixpoint product_rec {A} (pool : list A) (n : nat) : list (list A) :=
  match n with
  | O => [[]]
  | S n' =>
      flat_map (fun x => map (fun y => x ++ [y]) pool) (product_rec pool n')
  end.

(** The [repeat] argument is converted to a machine index first: an
    integer below [-2^63] does not fit and raises [OverflowError] (64-bit
    CPython).  A negative [repeat] that fits is refused with
    [ValueError].  For a non-negative [repeat] the model assumes that the
    product fits the machine (CPython refuses a [repeat] too large for it
    with [OverflowError] or [MemoryError]). *)
Definition product {A} (pool : list A) (repeat : Z)
  : result (list (list A)) :=
  if (repeat <? - 2 ^ 63)%Z then Raise OverflowError
  else if (repeat <? 0)%Z then Raise ValueError
  else Ok (product_rec pool (Z.to_nat repeat)).

(** [np.hstack] on a tuple of one-dimensional arrays: their
    concatenation; an empty tuple is refused with [ValueError]. *)
Definition hstack (tup : list (list Q)) : result (list Q) :=
  match tup with
  | [] => Raise ValueError
  | _ => Ok (concat tup)
  end.

(** [np.vstack] on a sequence of one-dimensional arrays: one row each;
    an empty sequence, or rows of different lengths, are refused with
    [ValueError]. *)
Definition vstack (rows : list (list Q)) : result matrix :=
  match rows with
  | [] => Raise ValueError
  | r :: rest =>
      if forallb (fun r' => Nat.eqb (length r') (length r)) rest
      then Ok rows
      else Raise ValueError
  end.

(** [map(np.hstack, cartesian)] is lazy and consumed inside
    [np.vstack], so an exception of [hstack] leaves [nqubit_angles]
    from there; the outcome is the same. *)
Definition nqubit_angles (one_qubit_angles : matrix) (n : Z)
  : result matrix :=
  cartesian <- product one_qubit_angles n ;;
  array_list <- mapM hstack cartesian ;;
  vstack array_list.

End Builder.

(* ================================================================== *)
(** ** Cost matrix (cell 10) *)

Module CostMatrix.

(** Elementwise [a - b] of two rows of one length.  The code subtracts
    [float64] numbers with rounding; the model subtracts exactly, which
    is the same for the multiples of 22.5 of the pipeline. *)
Fixpoint row_sub (a b : list Q) : list Q :=
  match a, b with
  | x :: a', y :: b' => (x - y) :: row_sub a' b'
  | _, _ => []
  end.

(** [angles - angles[:, None]]: entry [i][j] is the row
    [angles[j] - angles[i]]. *)
Definition angular_diff (angles : matrix) : list (list (list Q)) :=
  map (fun ai => map (fun aj => row_sub aj ai) angles) angles.

(** [np.abs] on a three-dimensional array. *)
Definition np_abs (t : list (list (list Q))) : list (list (list Q)) :=
  map (map (map Qabs)) t.

(** [np.max] along one axis: the running maximum from the first
    element; an empty axis has no maximum and raises [ValueError]. *)
Definition amax (v : list Q) : result Q :=
  match v with
  | [] => Raise ValueError
  | x :: r => Ok (fold_left Qmax r x)
  end.

(** [np.max(t, axis=2)]. *)
Definition max_axis2 (t : list (list (list Q))) : result matrix :=
  mapM (mapM amax) t.

Definition adj_mat (angles : matrix) : result matrix :=
  let angular_diff := angular_diff angles in
  max_axis2 (np_abs angular_diff).

End CostMatrix.

(* ================================================================== *)
(** ** Files and array objects *)

(** Array variables of the notebook refer to mutable array objects; a
    reference names one.  The disk maps a file name to its text, as text
    mode reads and writes it. *)
Definition ref : Set := nat.

Record world : Type := World {
  heap : ref -> matrix;
  disk : string -> option string
}.

Definition store (a : ref) (m : matrix) (w : world) : world :=
  World (fun r => if Nat.eqb r a then m else heap w r) (disk w).

(** Writing a file replaces its text.  Every name can be written: a
    name the operating system refuses is outside the model. *)
Definition write_file (name text : string) (w : world) : world :=
  World (heap w) (fun f => if String.eqb f name then Some text else disk w f).

(** The line terminator. *)
Definition nl : string := String "010"%char EmptyString.

(** [sep.join(l)]. *)
Fixpoint join (sep : string) (l : list string) : string :=
  match l with
  | [] => EmptyString
  | [x] => x
  | x :: r => (x ++ sep ++ join sep r)%string
  end.

(* ================================================================== *)
(** ** Problem serialisation (cells 16, 20) *)

Module Serializer.

Open Scope string_scope.

(** [HEADER.format(n=.., c=.., d=..)]. *)
Definition HEADER (n c d : string) : string :=
  "NAME : " ++ n ++ nl ++
  "TYPE : TSP" ++ nl ++
  "COMMENT : " ++ c ++ nl ++
  "DIMENSION : " ++ d ++ nl ++
  "EDGE_WEIGHT_TYPE : EXPLICIT" ++ nl ++
  "EDGE_WEIGHT_FORMAT : FULL_MATRIX" ++ nl ++
  "EDGE_WEIGHT_SECTION" ++ nl.

(** The decimal text of a Python integer. *)
Definition str_int (z : Z) : string := NilZero.string_of_int (Z.to_int z).

(** The largest finite [float64], [(2^53 - 1) * 2^971]. *)
Definition float64_max : Q := inject_Z ((2 ^ 53 - 1) * 2 ^ 971).

(** Whether a number lies within the [float64] range.  A result beyond
    it is an infinity in the code. *)
Definition finite (x : Q) : bool := Qle_bool (Qabs x) float64_max.

(** [int(x)] on a finite float: the fractional part is dropped (rounding
    toward zero). *)
Definition int_of_float (x : Q) : Z := Z.quot (Qnum x) (Z.pos (Qden x)).

(** ["%d" % x] on a float: [x] is converted with [int] and the integer
    is printed; an infinity cannot be converted and raises
    [OverflowError]. *)
Definition fmt_d (x : Q) : result string :=
  if finite x then Ok (str_int (int_of_float x)) else Raise OverflowError.

(** [X *= k] on an array object: every element is overwritten with
    its product by [k]. *)
Definition imul (X : matrix) (k : Q) : matrix :=
  map (map (fun x => (x * k)%Q)) X.

(** The integers [np.savetxt(.., fmt="%d")] prints for an array. *)
Definition printed (X : matrix) : list (list Z) :=
  map (map int_of_float) X.

(** [np.savetxt(fname, X, header=.., footer=.., fmt="%d")] with an empty
    [comments] prefix:
    the header and a newline, one line per row with the formatted
    elements separated by one space, the footer and a newline.  A row
    with an element that cannot be formatted raises, and the exception
    leaves [savetxt]; what is then left of the file is not modelled.
    The text is written through the plain opener; a name with one of the
    extensions [.gz], [.bz2], [.xz] and [.lzma] makes [np.savetxt] write
    a compressed file, which the model does not cover. *)
Definition savetxt (fname : string) (X : matrix) (header footer : string)
  (w : world) : result world :=
  rows <- mapM (fun row => cells <- mapM fmt_d row ;;
                           Ok (join " " cells ++ nl)) X ;;
  Ok (write_file fname
        (header ++ nl ++ String.concat EmptyString rows ++ footer ++ nl) w).

(** The array is doubled in place before anything is written, so the
    doubling has happened also when [np.savetxt] raises. *)
Definition save_tsp (filename : string) (adjacency_matrix : ref)
  (comment : string) (w : world) : result world :=
  let dimension := len (heap w adjacency_matrix) in
  let w := store adjacency_matrix (imul (heap w adjacency_matrix) 2) w in
  savetxt filename (heap w adjacency_matrix)
    (HEADER filename comment (str_int dimension)) "EOF" w.

End Serializer.

(* ================================================================== *)
(** ** Tour parsing (cell 27) *)

Module Deserializer.

Open Scope char_scope.

(** [f.readlines()] on the text of a file (newlines already
    normalised by text mode): the lines, each with its terminator. *)
Fixpoint readlines (s : string) : list string :=
  match s with
  | EmptyString => []
  | String c r =>
      if Ascii.eqb c "010" then String c EmptyString :: readlines r
      else match readlines r with
           | [] => [String c EmptyString]
           | l :: ls => String c l :: ls
           end
  end.

(** [s.rstrip(chars)]: trailing characters satisfying [chars] go. *)
Fixpoint rstrip (chars : ascii -> bool) (s : string) : string :=
  match s with
  | EmptyString => EmptyString
  | String c r =>
      match rstrip chars r with
      | EmptyString => if chars c then EmptyString else String c EmptyString
      | r' => String c r'
      end
  end.

Fixpoint lstrip (chars : ascii -> bool) (s : string) : string :=
  match s with
  | EmptyString => EmptyString
  | String c r => if chars c then lstrip chars r else s
  end.

(** [s.split(sep)] with an explicit one-character separator: every
    occurrence of [sep] cuts, so the result is never empty and
    adjacent separators give empty pieces. *)
Fixpoint split (sep : ascii) (s : string) : list string :=
  match s with
  | EmptyString => [EmptyString]
  | String c r =>
      if Ascii.eqb c sep then EmptyString :: split sep r
      else match split sep r with
           | [] => [String c EmptyString]
           | p :: ps => String c p :: ps
           end
  end.

(** The characters [" \n"] of [x.rstrip(" \n")]. *)
Definition space_or_newline (c : ascii) : bool :=
  Ascii.eqb c " " || Ascii.eqb c "010".

(** The white space [int] ignores around a number, among the code
    points below 256: tab to carriage return (9 to 13), the space, and
    the two non-ASCII spaces 133 and 160.  (The separators 28 to 31 are
    white space for [str.isspace] but not for [int].) *)
Definition isspace (c : ascii) : bool :=
  let n := nat_of_ascii c in
  ((9 <=? n) && (n <=? 13) || (n =? 32)
   || (n =? 133) || (n =? 160))%nat.

Definition digit_val (c : ascii) : option Z :=
  let n := nat_of_ascii c in
  if ((48 <=? n) && (n <=? 57))%nat then Some (Z.of_nat n - 48)%Z else None.

(** Decimal digits, with single underscores allowed between digits. *)
Fixpoint digits (s : string) (acc : Z) (after_digit : bool) : option Z :=
  match s with
  | EmptyString => if after_digit then Some acc else None
  | String c r =>
      match digit_val c with
      | Some d => digits r (10 * acc + d)%Z true
      | None =>
          if Ascii.eqb c "_" && after_digit then digits r acc false
          else None
      end
  end.

(** [int(s)] on a string: surrounding white space is ignored, one sign
    may precede the digits; anything else raises [ValueError]. *)
Definition int (s : string) : result Z :=
  let t := rstrip isspace (lstrip isspace s) in
  let parsed :=
    match t with
    | String "+" r => digits r 0 false
    | String "-" r => option_map Z.opp (digits r 0 false)
    | _ => digits t 0 false
    end in
  match parsed with
  | Some z => Ok z
  | None => Raise ValueError
  end.

(** The pieces handed to [int]: the lines after the first, stripped on
    the right, joined with one space and split at every space. *)
Definition pieces (content : string) : list string :=
  let lines := map (rstrip space_or_newline) (skipn 1 (readlines content)) in
  let joined_lines := join " " lines in
  split " " joined_lines.

Definition get_projs (filename : string) (w : world) : result (list Z) :=
  match disk w filename with
  | None => Raise FileNotFoundError
  | Some content => mapM int (pieces content)
  end.

End Deserializer.

(* ================================================================== *)
(** ** The multi-qubit cells (cells 48, 54) *)

Module Notebook.

Open Scope string_scope.

(** ["{}q_6s.tsp".format(nqubits)] and its companions. *)
Definition tsp_filename (nqubits : Z) : string :=
  Serializer.str_int nqubits ++ "q_6s.tsp".

Definition tsp_comment (nqubits : Z) : string :=
  "Wave plate tomography, " ++ Serializer.str_int nqubits
  ++ " qubits, six-state".

Definition sol_filename (nqubits : Z) : string :=
  Serializer.str_int nqubits ++ "q_6s.sol".

(** The body of the loop of cell 48.  [adjacency_matrix] is the
    reference of the array object that [adj_mat] returns and the variable
    of that name comes to denote. *)
Definition generate (nqubits : Z) (adjacency_matrix : ref) (w : world)
  : result world :=
  nqu_angles <- Builder.nqubit_angles Builder.ANGLES_6s nqubits ;;
  M <- CostMatrix.adj_mat nqu_angles ;;
  let w := store adjacency_matrix M w in
  let tsp_filename := tsp_filename nqubits in
  let tsp_comment := tsp_comment nqubits in
  Serializer.save_tsp tsp_filename adjacency_matrix tsp_comment w.

(** A [for] loop over a list whose body acts on the world. *)
Fixpoint for_in {A} (l : list A) (body : A -> world -> result world)
  (w : world) : result world :=
  match l with
  | [] => Ok w
  | x :: r => w' <- body x w ;; for_in r body w'
  end.

(** [range(lo, hi)]. *)
Definition range_from (lo hi : Z) : list Z :=
  map (fun k => (lo + k)%Z) (range (hi - lo)).

(** Cell 48: [for nqubits in range(1, 5)]. *)
Definition cell_48 (adjacency_matrix : ref) (w : world) : result world :=
  for_in (range_from 1 5) (fun nqubits => generate nqubits adjacency_matrix) w.

(** What the body of the loop of cell 54 prints for one qubit count. *)
Record evaluation : Type := Evaluation {
  optimal_cycle : Q;
  conv_cycle : Q;
  speedup : Evaluator.np_float64;
  reduction : Q
}.

(** The body of the loop of cell 54. *)
Definition evaluate (nqubits : Z) (w : world) : result evaluation :=
  nqu_angles <- Builder.nqubit_angles Builder.ANGLES_6s nqubits ;;
  adjacency_matrix <- CostMatrix.adj_mat nqu_angles ;;
  let sol_filename := sol_filename nqubits in
  solution <- Deserializer.get_projs sol_filename w ;;
  optimal_cycle <- Evaluator.cycle_length adjacency_matrix solution ;;
  conv_cycle <- Evaluator.cycle_length adjacency_matrix
                  (range (len adjacency_matrix)) ;;
  speedup <- Evaluator.speedup conv_cycle optimal_cycle ;;
  let reduction := Evaluator.reduction conv_cycle optimal_cycle in
  Ok (Evaluation optimal_cycle conv_cycle speedup reduction).

End Notebook.

(* ================================================================== *)
(** ** Vocabulary of the stated properties *)

(** Entry [(i, j)] of a matrix, and component [k] of setting [i]. *)
Definition entry (M : matrix) (i j : nat) : Q := nth j (nth i M []) 0.

(** [M] has [N] rows of [N] entries. *)
Definition square (N : nat) (M : matrix) : Prop :=
  length M = N /\ Forall (fun row => length row = N) M.

(** Every setting has [C] components. *)
Definition arity (C : nat) (settings : matrix) : Prop :=
  Forall (fun s => length s = C) settings.

(** [m] is the maximum of [f 0, ..., f (C-1)]. *)
Definition is_max_of (C : nat) (f : nat -> Q) (m : Q) : Prop :=
  (exists k, (k < C)%nat /\ m == f k) /\
  (forall k, (k < C)%nat -> f k <= m).

(** [f 0 + f 1 + ... + f (n-1)]. *)
Fixpoint sigma (n : nat) (f : nat -> Q) : Q :=
  match n with
  | O => 0
  | S n' => sigma n' f + f n'
  end.

(** The sum of the consecutive edges of a tour and of its closing edge,
    for a tour of indices in range. *)
Definition tour_sum (M : matrix) (t : list Z) : Q :=
  let at_ k := Z.to_nat (nth k t 0%Z) in
  sigma (length t - 1) (fun k => entry M (at_ k) (at_ (S k)))
  + entry M (at_ (length t - 1)%nat) (at_ 0%nat).

(** The edges of a tour by position: [(t[n], t[n+1])] for the
    consecutive positions, then the closing edge [(t[last], t[0])]. *)
Definition edge_list (path : list Z) : list (Z * Z) :=
  map (fun n => (nth n path 0%Z, nth (S n) path 0%Z))
      (seq 0 (length path - 1))
  ++ [(nth (length path - 1) path 0%Z, nth 0 path 0%Z)].

(** Digit [k] (most significant first, [k < n]) of [idx] written in
    base [b] with [n] digits. *)
Definition digit (b n idx k : nat) : nat := (idx / b ^ (n - 1 - k)) mod b.

(** The setting the digits of [idx] select: one base setting per qubit,
    concatenated, first qubit first. *)
Definition selected (base : matrix) (n idx : nat) : list Q :=
  concat (map (fun k => nth (digit (length base) n idx k) base [])
              (seq 0 n)).

(** [z] is [q] with its fractional part dropped (rounding toward zero). *)
Definition truncation (q : Q) (z : Z) : Prop :=
  (0 <= q -> inject_Z z <= q /\ q < inject_Z z + 1) /\
  (q <= 0 -> q <= inject_Z z /\ inject_Z z - 1 < q).

(** [z] is an integer nearest to [q]. *)
Definition nearest (q : Q) (z : Z) : Prop := Qabs (q - inject_Z z) <= 1 # 2.

(** The text of a problem file: the header, an empty line, one line of
    space-separated integers per row, and the [EOF] line. *)
Definition tsp_text (name comment : string) (ints : list (list Z)) : string :=
  (Serializer.HEADER name comment
     (Serializer.str_int (Z.of_nat (length ints)))
   ++ nl
   ++ String.concat EmptyString
        (map (fun row => join " " (map Serializer.str_int row) ++ nl) ints)
   ++ "EOF" ++ nl)%string.

(** [s] holds no line terminator. *)
Fixpoint single_line (s : string) : Prop :=
  match s with
  | EmptyString => True
  | String c r => c <> "010"%char /\ single_line r
  end.

(** The dimension a solution file declares on its first line. *)
Definition declared_dimension (content : string) : result Z :=
  Deserializer.int (hd EmptyString (Deserializer.readlines content)).

(** [q] is a whole number of 22.5-degree steps, between [lo] and [hi]
    of them. *)
Definition steps_of_22_5 (lo hi : Z) (q : Q) : Prop :=
  exists z : Z, (lo <= z <= hi)%Z /\ q == inject_Z z * 22.5.

(** Two outcomes of a numeric computation agree: both raise the same
    exception, or both return and the numbers are equal. *)
Definition agree (r r' : result Q) : Prop :=
  match r, r' with
  | Ok v, Ok v' => v == v'
  | Raise e, Raise e' => e = e'
  | _, _ => False
  end.

(** [M[i][j] == M[j][i]] for all indices below [N]. *)
Definition symmetric (N : nat) (M : matrix) : Prop :=
  forall i j, (i < N)%nat -> (j < N)%nat -> entry M i j == entry M j i.

(** The consecutive pairs of a sequence. *)
Fixpoint pairs (p : list Z) : list (Z * Z) :=
  match p with
  | a :: (b :: _) as r => (a, b) :: pairs r
  | _ => []
  end.

(** The second outcome is the first one multiplied by [k]: both raise
    the same exception, or both return and the second number is [k]
    times the first. *)
Definition scaled (k : Q) (r r' : result Q) : Prop :=
  match r, r' with
  | Ok v, Ok v' => v' == v * k
  | Raise e, Raise e' => e = e'
  | _, _ => False
  end.

(** A string free of spaces and line terminators. *)
Fixpoint plain (s : string) : Prop :=
  match s with
  | EmptyString => True
  | String c r => Deserializer.space_or_newline c = false /\ plain r
  end.

(** A token of a solution file: not empty, and plain. *)
Definition token (s : string) : Prop := s <> EmptyString /\ plain s.

(** [n] spaces. *)
Fixpoint spaces (n : nat) : string :=
  match n with
  | O => EmptyString
  | S k => String " "%char (spaces k)
  end.

(** One line of a solution file: its tokens separated by single spaces,
    then some trailing spaces and the line terminator. *)
Definition sol_line (l : list string * nat) : string :=
  (join " " (fst l) ++ spaces (snd l) ++ nl)%string.

(** The lines of a solution file after its first line. *)
Fixpoint sol_body (lines : list (list string * nat)) : string :=
  match lines with
  | [] => EmptyString
  | l :: r => (sol_line l ++ sol_body r)%string
  end.

(** [text] is a problem file for [n] qubits: the header for the name and
    comment of that count, then a [6^n] x [6^n] matrix of integers that
    are 0, 45, 90, 135 or 180, symmetric, and zero exactly on the
    diagonal. *)
Definition problem_file (n : nat) (text : string) : Prop :=
  exists ints : list (list Z),
    text = tsp_text (Notebook.tsp_filename (Z.of_nat n))
                    (Notebook.tsp_comment (Z.of_nat n)) ints /\
    length ints = (6 ^ n)%nat /\
    (forall i, (i < 6 ^ n)%nat -> length (nth i ints []) = (6 ^ n)%nat) /\
    forall i j, (i < 6 ^ n)%nat -> (j < 6 ^ n)%nat ->
      (exists k, (0 <= k <= 4)%Z /\
                 nth j (nth i ints []) 0%Z = (45 * k)%Z) /\
      nth j (nth i ints []) 0%Z = nth i (nth j ints []) 0%Z /\
      (nth j (nth i ints []) 0%Z = 0%Z <-> i = j).

(** [x] lies within the [float64] range. *)
Definition fits_float64 (x : Q) : Prop := Qabs x <= Serializer.float64_max.

(** Every entry of the matrix, once doubled, lies within the [float64]
    range; and its contrary, some doubled entry lies beyond it. *)
Definition doubles_fit (M : matrix) : Prop :=
  Forall (Forall (fun x => fits_float64 (x * 2))) M.

Definition double_overflows (M : matrix) : Prop :=
  Exists (Exists (fun x => ~ fits_float64 (x * 2))) M.

(** The position a Python index denotes in a sequence of length [N]: a
    negative index counts from the end. *)
Definition wrap (N : nat) (i : Z) : Z :=
  if (i <? 0)%Z then (i + Z.of_nat N)%Z else i.

(** [name] ends with [ext]. *)
Definition has_suffix (ext name : string) : bool :=
  (String.length ext <=? String.length name)%nat
  && String.eqb
       (substring (String.length name - String.length ext)
                  (String.length ext) name)
       ext.

(** The name has none of the extensions for which [np.savetxt] writes a
    compressed file. *)
Definition uncompressed (name : string) : Prop :=
  forallb (fun ext => negb (has_suffix ext name))
          [".gz"; ".bz2"; ".xz"; ".lzma"]%string
  = true.

(** The character [c] occurs in [s]. *)
Fixpoint occurs (c : ascii) (s : string) : Prop :=
  match s with
  | EmptyString => False
  | String x r => x = c \/ occurs c r
  end.

(** A character that no integer literal contains: neither a decimal
    digit, nor a sign, nor an underscore, nor white space. *)
Definition foreign (c : ascii) : bool :=
  let n := nat_of_ascii c in
  negb ((48 <=? n) && (n <=? 57)
        || (n =? 43) || (n =? 45) || (n =? 95)
        || (9 <=? n) && (n <=? 13) || (n =? 32)
        || (n =? 133) || (n =? 160))%nat.

(** Entry [(i, j)] of an integer matrix, and the sum of the edges of a
    tour on it, closing edge included. *)
Definition entry_Z (ints : list (list Z)) (i j : nat) : Z :=
  nth j (nth i ints []) 0%Z.

Fixpoint sigma_Z (n : nat) (f : nat -> Z) : Z :=
  match n with
  | O => 0%Z
  | S n' => (sigma_Z n' f + f n')%Z
  end.

Definition tour_sum_Z (ints : list (list Z)) (t : list Z) : Z :=
  let at_ k := Z.to_nat (nth k t 0%Z) in
  (sigma_Z (length t - 1) (fun k => entry_Z ints (at_ k) (at_ (S k)))
   + entry_Z ints (at_ (length t - 1)%nat) (at_ 0%nat))%Z.

(* ================================================================== *)
(** ** The exception monad *)

Section MapM.

Variables A B : Type.
Variable f : A -> result B.

Lemma mapM_Ok_map (g : A -> B) (l : list A) :
  (forall x, In x l -> f x = Ok (g x)) -> mapM f l = Ok (map g l).
Proof.
  induction l as [|x r IH]; intros H; simpl; [reflexivity|].
  rewrite (H x (or_introl eq_refl)); simpl.
  rewrite IH by (intros y Hy; apply H; now right).
  reflexivity.
Qed.

Lemma mapM_Ok_inv (l : list A) (ys : list B) :
  mapM f l = Ok ys -> Forall2 (fun x y => f x = Ok y) l ys.
Proof.
  revert ys; induction l as [|x r IH]; simpl; intros ys H.
  - injection H as <-. constructor.
  - destruct (f x) as [y|e] eqn:Ex; simpl in H; [|discriminate].
    destruct (mapM f r) as [zs|e] eqn:Er; simpl in H; [|discriminate].
    injection H as <-. constructor; auto.
Qed.

Lemma mapM_Raise_class (E : exn) (l : list A) :
  (forall x e, In x l -> f x = Raise e -> e = E) ->
  forall e, mapM f l = Raise e -> e = E.
Proof.
  induction l as [|x r IH]; simpl; intros H e He; [discriminate|].
  destruct (f x) as [y|e'] eqn:Ex; simpl in He.
  - destruct (mapM f r) as [zs|e''] eqn:Er; simpl in He; [discriminate|].
    injection He as <-.
    apply IH; [intros x' e' Hx'; apply H; now right | reflexivity].
  - injection He as <-. apply (H x); auto.
Qed.

Lemma mapM_Ok_In (l : list A) (ys : list B) (x : A) :
  mapM f l = Ok ys -> In x l -> exists y, f x = Ok y.
Proof.
  intros H Hx. apply mapM_Ok_inv in H.
  induction H as [|a b l' ys' Hab _ IH]; [destruct Hx|].
  destruct Hx as [<-|Hx]; eauto.
Qed.

End MapM.

(* ================================================================== *)
(** ** Indexing *)

Section Getitem.

Variable A : Type.
Implicit Types (l : list A) (i : Z).

Lemma getitem_nat l (n : nat) (d : A) :
  (n < length l)%nat -> getitem l (Z.of_nat n) = Ok (nth n l d).
Proof.
  intros Hn. unfold getitem, len.
  destruct (Z.ltb_spec (Z.of_nat n) 0) as [H|_]; [lia|].
  destruct (Z.leb_spec 0 (Z.of_nat n)) as [_|H]; [|lia].
  destruct (Z.ltb_spec (Z.of_nat n) (Z.of_nat (length l))) as [_|H]; [|lia].
  simpl. rewrite Nat2Z.id.
  now rewrite (nth_error_nth' l d Hn).
Qed.

Lemma getitem_neg l (k : nat) (d : A) :
  (0 < k <= length l)%nat ->
  getitem l (- Z.of_nat k) = Ok (nth (length l - k) l d).
Proof.
  intros Hk. unfold getitem, len.
  destruct (Z.ltb_spec (- Z.of_nat k) 0) as [_|H]; [|lia].
  replace (- Z.of_nat k + Z.of_nat (length l))%Z
    with (Z.of_nat (length l - k)) by lia.
  destruct (Z.leb_spec 0 (Z.of_nat (length l - k))) as [_|H]; [|lia].
  destruct (Z.ltb_spec (Z.of_nat (length l - k)) (Z.of_nat (length l)))
    as [_|H]; [|lia].
  simpl. rewrite Nat2Z.id.
  now rewrite (nth_error_nth' l d) by lia.
Qed.

Lemma getitem_Raise l i (e : exn) : getitem l i = Raise e -> e = IndexError.
Proof.
  unfold getitem.
  destruct (_ && _); [destruct (nth_error _ _)|]; congruence.
Qed.

Lemma getitem_Ok_range l i (x : A) :
  getitem l i = Ok x -> (- len l <= i < len l)%Z.
Proof.
  unfold getitem.
  set (k := (if (i <? 0)%Z then i + len l else i)%Z).
  destruct ((0 <=? k) && (k <? len l))%Z eqn:Hk; [|discriminate].
  intros _. apply andb_prop in Hk as [H1 H2].
  apply Z.leb_le in H1. apply Z.ltb_lt in H2. subst k.
  destruct (Z.ltb_spec i 0); lia.
Qed.

Lemma getitem_in_range l i :
  (- len l <= i < len l)%Z -> exists x, getitem l i = Ok x.
Proof.
  intros Hi.
  destruct l as [|d l'] eqn:El; [unfold len in Hi; simpl in Hi; lia|].
  rewrite <- El in *. clear El l'.
  destruct (Z.ltb_spec i 0) as [Hneg|Hpos].
  - exists (nth (length l - Z.to_nat (- i)) l d).
    replace i with (- Z.of_nat (Z.to_nat (- i)))%Z at 1 by lia.
    apply getitem_neg. unfold len in Hi. lia.
  - exists (nth (Z.to_nat i) l d).
    replace i with (Z.of_nat (Z.to_nat i)) at 1 by lia.
    apply getitem_nat. unfold len in Hi. lia.
Qed.

Lemma getitem_wrap l i (d : A) :
  (- len l <= i < len l)%Z ->
  getitem l i = Ok (nth (Z.to_nat (wrap (length l) i)) l d).
Proof.
  intros Hi. unfold wrap, len in *.
  destruct (Z.ltb_spec i 0) as [Hneg|Hpos].
  - replace i with (- Z.of_nat (Z.to_nat (- i)))%Z at 1 by lia.
    rewrite (@getitem_neg l (Z.to_nat (- i)) d) by lia.
    do 2 f_equal. lia.
  - replace i with (Z.of_nat (Z.to_nat i)) at 1 by lia.
    now rewrite (@getitem_nat l (Z.to_nat i) d) by lia.
Qed.

End Getitem.

Lemma getitem_Ok_In (A : Type) (l : list A) (i : Z) (x : A) :
  getitem l i = Ok x -> In x l.
Proof.
  unfold getitem. destruct (_ && _); [|discriminate].
  destruct (nth_error _ _) eqn:E; [|discriminate].
  intros [= <-]. now apply nth_error_In in E.
Qed.

Lemma mapM_total (A B : Type) (f : A -> result B) (l : list A) :
  (forall x, In x l -> exists y, f x = Ok y) -> exists ys, mapM f l = Ok ys.
Proof.
  induction l as [|x r IH]; intros H; simpl; [now eexists|].
  destruct (H x (or_introl eq_refl)) as [y ->].
  destruct IH as [ys ->]; [intros z Hz; apply H; now right|].
  simpl. now eexists.
Qed.

(* ================================================================== *)
(** ** Cycle evaluation: edges, failures and the value *)

Section CycleLength.

Import Evaluator.

Lemma edges_of_nil : edges_of [] = Raise IndexError.
Proof. reflexivity. Qed.

Lemma edges_of_nonempty (path : list Z) :
  path <> [] -> edges_of path = Ok (edge_list path).
Proof.
  intros Hne.
  assert (Hlen : (0 < length path)%nat)
    by (destruct path; [congruence | simpl; lia]).
  unfold edges_of, edge_list, range, len.
  replace (Z.to_nat (Z.of_nat (length path) - 1)) with (length path - 1)%nat
    by lia.
  rewrite (@mapM_Ok_map _ _ _
             (fun z => (nth (Z.to_nat z) path 0%Z,
                        nth (S (Z.to_nat z)) path 0%Z))).
  - simpl. rewrite map_map.
    change (-1)%Z with (- Z.of_nat 1)%Z.
    rewrite (getitem_neg path 0%Z) by lia. simpl.
    change 0%Z with (Z.of_nat 0) at 1.
    rewrite (getitem_nat path 0%Z) by lia. simpl.
    do 2 f_equal. apply map_ext. intros n. now rewrite Nat2Z.id.
  - intros z Hz. apply in_map_iff in Hz as [n [<- Hn]].
    apply in_seq in Hn. rewrite Nat2Z.id.
    rewrite (getitem_nat path 0%Z) by lia. simpl.
    replace (Z.of_nat n + 1)%Z with (Z.of_nat (S n)) by lia.
    rewrite (getitem_nat path 0%Z) by lia. reflexivity.
Qed.

(** Every element of a tour starts one of its edges, and both ends of
    every edge are elements of the tour. *)
Lemma edge_list_starts (path : list Z) (i : Z) :
  In i path -> exists j, In (i, j) (edge_list path).
Proof.
  intros Hi. apply (In_nth _ _ 0%Z) in Hi as [n [Hn <-]].
  unfold edge_list.
  destruct (Nat.eq_dec n (length path - 1)) as [->|Hlast].
  - eexists. apply in_or_app. right. left. reflexivity.
  - exists (nth (S n) path 0%Z). apply in_or_app. left.
    apply in_map_iff. exists n. split; [reflexivity|].
    apply in_seq. lia.
Qed.

Lemma edge_list_ends (path : list Z) (a b : Z) :
  path <> [] -> In (a, b) (edge_list path) -> In a path /\ In b path.
Proof.
  intros Hne H.
  assert (Hlen : (0 < length path)%nat)
    by (destruct path; [congruence | simpl; lia]).
  unfold edge_list in H. apply in_app_or in H as [H|[H|[]]].
  - apply in_map_iff in H as [n [[= <- <-] Hn]]. apply in_seq in Hn.
    split; apply nth_In; lia.
  - injection H as <- <-. split; apply nth_In; lia.
Qed.

Lemma weight_Raise (M : matrix) (e : Z * Z) (x : exn) :
  weight M e = Raise x -> x = IndexError.
Proof.
  unfold weight. destruct (getitem M (fst e)) as [row|x'] eqn:E; simpl.
  - apply getitem_Raise.
  - intros [= <-]. exact (getitem_Raise _ _ E).
Qed.

Lemma weight_in_range (N : nat) (M : matrix) (a b : Z) :
  square N M ->
  (0 <= a < Z.of_nat N)%Z -> (0 <= b < Z.of_nat N)%Z ->
  weight M (a, b) = Ok (entry M (Z.to_nat a) (Z.to_nat b)).
Proof.
  intros [HN Hrows] Ha Hb. unfold weight, entry. simpl.
  replace a with (Z.of_nat (Z.to_nat a)) at 1 by lia.
  rewrite (getitem_nat M []) by lia. simpl.
  assert (Hr : length (nth (Z.to_nat a) M []) = N).
  { rewrite Forall_forall in Hrows. apply Hrows. apply nth_In. lia. }
  replace b with (Z.of_nat (Z.to_nat b)) at 1 by lia.
  now rewrite (getitem_nat _ 0) by lia.
Qed.

Lemma cycle_length_Raise (M : matrix) (t : list Z) (e : exn) :
  cycle_length M t = Raise e -> e = IndexError.
Proof.
  unfold cycle_length. destruct t as [|i t'].
  - rewrite edges_of_nil. simpl. congruence.
  - rewrite edges_of_nonempty by discriminate. simpl.
    destruct (mapM (weight M) _) as [ws|e'] eqn:E; simpl; [discriminate|].
    intros [= <-]. revert E. apply mapM_Raise_class.
    intros x e _. apply weight_Raise.
Qed.

Lemma cycle_length_Ok_valid (M : matrix) (t : list Z) (v : Q) :
  cycle_length M t = Ok v ->
  t <> [] /\ forall i, In i t -> (- len M <= i < len M)%Z.
Proof.
  unfold cycle_length. destruct t as [|i0 t'].
  - rewrite edges_of_nil. discriminate.
  - rewrite edges_of_nonempty by discriminate. simpl bind.
    destruct (mapM (weight M) _) as [ws|e'] eqn:E; [|discriminate].
    intros _. split; [discriminate|]. intros i Hi.
    destruct (edge_list_starts _ _ Hi) as [j Hj].
    destruct (mapM_Ok_In _ _ _ E Hj) as [y Hy].
    unfold weight in Hy. simpl in Hy.
    destruct (getitem M i) as [row|] eqn:Er; [|discriminate].
    exact (getitem_Ok_range _ _ Er).
Qed.

Lemma cycle_length_total (N : nat) (M : matrix) (t : list Z) :
  square N M -> t <> [] ->
  (forall i, In i t -> (- Z.of_nat N <= i < Z.of_nat N)%Z) ->
  exists v, cycle_length M t = Ok v.
Proof.
  intros [HN Hrows] Hne Hin. unfold cycle_length.
  rewrite edges_of_nonempty by assumption. simpl bind.
  destruct (@mapM_total _ _ (weight M) (edge_list t)) as [ws ->].
  - intros [a b] Hab. destruct (edge_list_ends _ _ Hne Hab) as [Ha Hb].
    unfold weight. simpl.
    destruct (@getitem_in_range _ M a) as [row Hrow];
      [unfold len; rewrite HN; auto|].
    rewrite Hrow. simpl. apply getitem_in_range.
    rewrite Forall_forall in Hrows.
    unfold len. rewrite (Hrows row (getitem_Ok_In _ _ Hrow)). auto.
  - simpl. now eexists.
Qed.

Lemma sum_snoc (l : list Q) (x : Q) : sum (l ++ [x]) = (sum l + x)%Q.
Proof. unfold sum. now rewrite fold_left_app. Qed.

Lemma sum_sigma (n : nat) (f : nat -> Q) : sum (map f (seq 0 n)) = sigma n f.
Proof.
  induction n as [|n IH]; [reflexivity|].
  rewrite seq_S, map_app. simpl map. rewrite sum_snoc, IH. reflexivity.
Qed.

Lemma cycle_length_value (N : nat) (M : matrix) (t : list Z) :
  square N M -> t <> [] ->
  (forall i, In i t -> (0 <= i < Z.of_nat N)%Z) ->
  cycle_length M t = Ok (tour_sum M t).
Proof.
  intros Hsq Hne Hin. unfold cycle_length.
  rewrite edges_of_nonempty by assumption. simpl bind.
  rewrite (@mapM_Ok_map _ _ _
             (fun e => entry M (Z.to_nat (fst e)) (Z.to_nat (snd e)))).
  - simpl. f_equal. unfold edge_list, tour_sum.
    rewrite map_app, map_map. simpl map. rewrite sum_snoc. simpl fst.
    simpl snd. now rewrite sum_sigma.
  - intros [a b] Hab. destruct (edge_list_ends _ _ Hne Hab) as [Ha Hb].
    apply (weight_in_range Hsq); auto.
Qed.

Lemma sigma_ext_eq (n : nat) (f g : nat -> Q) :
  (forall k, f k = g k) -> sigma n f = sigma n g.
Proof.
  intros H. induction n as [|n IH]; simpl; [reflexivity|].
  now rewrite IH, H.
Qed.

Lemma nth_map_wrap (N : nat) (t : list Z) (k : nat) :
  nth k (map (wrap N) t) 0%Z = wrap N (nth k t 0%Z).
Proof. exact (map_nth (wrap N) t 0%Z k). Qed.

Lemma weight_wrap (N : nat) (M : matrix) (a b : Z) :
  square N M ->
  (- Z.of_nat N <= a < Z.of_nat N)%Z -> (- Z.of_nat N <= b < Z.of_nat N)%Z ->
  weight M (a, b) = Ok (entry M (Z.to_nat (wrap N a)) (Z.to_nat (wrap N b))).
Proof.
  intros [HN Hrows] Ha Hb. unfold weight, entry. simpl fst. simpl snd.
  rewrite (@getitem_wrap _ M a []) by (unfold len; lia).
  rewrite HN. cbn [bind].
  assert (Hr : length (nth (Z.to_nat (wrap N a)) M []) = N).
  { rewrite Forall_forall in Hrows. apply Hrows. apply nth_In.
    unfold wrap. destruct (Z.ltb_spec a 0); lia. }
  rewrite (@getitem_wrap _ _ b 0) by (unfold len; lia).
  now rewrite Hr.
Qed.

(** On a tour of indices in [-N, N) the value is the sum over the
    positions the indices denote, added in the order of the tour. *)
Lemma cycle_length_wrap (N : nat) (M : matrix) (t : list Z) :
  square N M -> t <> [] ->
  (forall i, In i t -> (- Z.of_nat N <= i < Z.of_nat N)%Z) ->
  cycle_length M t = Ok (tour_sum M (map (wrap N) t)).
Proof.
  intros Hsq Hne Hin. unfold cycle_length.
  rewrite edges_of_nonempty by assumption. simpl bind.
  rewrite (@mapM_Ok_map _ _ _
             (fun e => entry M (Z.to_nat (wrap N (fst e)))
                               (Z.to_nat (wrap N (snd e))))).
  - simpl. f_equal. unfold edge_list, tour_sum.
    rewrite map_app, map_map. simpl map. rewrite sum_snoc. simpl fst.
    simpl snd. rewrite sum_sigma, length_map, !nth_map_wrap.
    f_equal. apply sigma_ext_eq. intros k. now rewrite !nth_map_wrap.
  - intros [a b] Hab. destruct (edge_list_ends _ _ Hne Hab) as [Ha Hb].
    apply (weight_wrap Hsq); auto.
Qed.

End CycleLength.

(* ================================================================== *)
(** ** Cycle evaluator: the stated properties *)

Section EvaluatorProperties.

Import Evaluator Builder CostMatrix.

(** C2, as stated, does not hold: an index below zero need not make
    [cycle_length] fail.  On a 2x2 matrix the tour [0, -1] is evaluated
    (the index -1 denotes the last row and column), although it contains
    an index [< 0]. *)
Lemma cycle_length_negative_index_accepted :
  ~ (forall (M : matrix) (N : nat) (t : list Z),
       square N M ->
       (exists i, In i t /\ (Z.of_nat N <= i \/ i < 0)%Z) ->
       cycle_length M t = Raise IndexError).
Proof.
  intros H.
  specialize (H [[0; 1]; [1; 0]] 2%nat [0; -1]%Z).
  assert (Hsq : square 2 [[0; 1]; [1; 0]])
    by (split; [reflexivity | repeat constructor]).
  assert (Hex : exists i, In i [0; -1]%Z /\ (Z.of_nat 2 <= i \/ i < 0)%Z)
    by (exists (-1)%Z; split; [simpl; auto | lia]).
  specialize (H Hsq Hex). vm_compute in H. discriminate H.
Qed.

(** C2, amended: on an NxN matrix [cycle_length] raises [IndexError] for
    the empty tour and for a tour containing an index [>= N] or [< -N];
    a non-empty tour whose indices all lie in [-N, N) is evaluated, an
    index [i < 0] standing for [N + i]: the result is the sum of the
    edges, closing edge included, of the tour in which every negative
    index [i] is replaced by [N + i]. *)
Theorem cycle_length_failures (M : matrix) (N : nat) (t : list Z) :
  square N M ->
  (t = [] -> cycle_length M t = Raise IndexError) /\
  ((exists i, In i t /\ (Z.of_nat N <= i \/ i < - Z.of_nat N)%Z) ->
   cycle_length M t = Raise IndexError) /\
  (t <> [] ->
   (forall i, In i t -> (- Z.of_nat N <= i < Z.of_nat N)%Z) ->
   cycle_length M t = Ok (tour_sum M (map (wrap N) t))).
Proof.
  intros Hsq. split; [|split].
  - intros ->. reflexivity.
  - intros [i [Hi Hout]].
    destruct (cycle_length M t) as [v|e] eqn:E.
    + apply cycle_length_Ok_valid in E as [_ Hv].
      specialize (Hv i Hi). destruct Hsq as [HN _].
      unfold len in Hv. rewrite HN in Hv. lia.
    + now rewrite (cycle_length_Raise _ _ E).
  - intros Hne Hin. exact (cycle_length_wrap Hsq Hne Hin).
Qed.

Lemma cycle_length_failures_witness :
  square 2 [[0; 1]; [5; 0]] /\
  cycle_length [[0; 1]; [5; 0]] [0; 2]%Z = Raise IndexError /\
  cycle_length [[0; 1]; [5; 0]] [0; -1]%Z
  = Ok (tour_sum [[0; 1]; [5; 0]] [0; 1]%Z).
Proof.
  assert (Hsq : square 2 [[0; 1]; [5; 0]])
    by (split; [reflexivity | repeat constructor]).
  split; [exact Hsq|]. split.
  - apply (proj1 (proj2 (@cycle_length_failures _ 2%nat [0; 2]%Z Hsq))).
    exists 2%Z. split; [simpl; auto | simpl; lia].
  - apply (proj2 (proj2 (@cycle_length_failures _ 2%nat [0; -1]%Z Hsq)));
      [discriminate|].
    intros i [<-|[<-|[]]]; simpl; lia.
Defined.

(** C5: for a non-empty tour [t] of indices in [0, N) into an NxN matrix
    [M], [cycle_length M t] is the sum of [M[t[k]][t[k+1]]] for
    [k = 0 .. len(t)-2] plus the closing edge [M[t[-1]][t[0]]]; on the
    matrix of the one-qubit table the tour [0,5,3,4,1,2] gives 225, the
    identity tour gives 292.5, and the reduction of 292.5 against 225 is
    67.5. *)
Theorem cycle_length_is_tour_sum :
  (forall (M : matrix) (N : nat) (t : list Z),
     square N M -> t <> [] ->
     (forall i, In i t -> (0 <= i < Z.of_nat N)%Z) ->
     cycle_length M t = Ok (tour_sum M t)) /\
  (exists M, adj_mat ANGLES_6s = Ok M /\
     (exists v, cycle_length M [0; 5; 3; 4; 1; 2]%Z = Ok v /\ v == 225) /\
     (exists v, cycle_length M [0; 1; 2; 3; 4; 5]%Z = Ok v /\ v == 292.5)) /\
  reduction 292.5 225 == 67.5.
Proof.
  split; [|split].
  - intros M N t. apply cycle_length_value.
  - eexists. split; [vm_compute; reflexivity|].
    split; eexists; (split; [vm_compute; reflexivity|]); vm_compute;
      reflexivity.
  - vm_compute. reflexivity.
Qed.

Lemma cycle_length_is_tour_sum_witness :
  cycle_length [[0; 3]; [5; 0]] [1; 0]%Z
  = Ok (tour_sum [[0; 3]; [5; 0]] [1; 0]%Z).
Proof.
  apply (proj1 cycle_length_is_tour_sum [[0; 3]; [5; 0]] 2%nat [1; 0]%Z).
  - split; [reflexivity | repeat constructor].
  - discriminate.
  - intros i [<-|[<-|[]]]; simpl; lia.
Defined.

(** C3, as stated, does not hold: a zero optimal cycle length does not
    make the speedup cell fail.  Both cycle lengths are NumPy floats, and
    292.5 / 0 evaluates to infinity. *)
Lemma speedup_zero_does_not_raise :
  ~ (forall conventional optimal : Q,
       optimal == 0 -> speedup conventional optimal = Raise ZeroDivisionError).
Proof.
  intros H. specialize (H 292.5 0 (Qeq_refl 0)). vm_compute in H.
  discriminate H.
Qed.

(** C3, amended: the speedup is the quotient [conventional / optimal]
    when [optimal <> 0]; when [optimal = 0] nothing is raised and the
    result is an infinity with the sign of [conventional], or
    not-a-number when [conventional] is zero as well. *)
Theorem speedup_never_raises (conventional optimal : Q) :
  (~ optimal == 0 ->
   speedup conventional optimal = Ok (Finite (conventional / optimal))) /\
  (optimal == 0 ->
   (0 < conventional -> speedup conventional optimal = Ok (Inf false)) /\
   (conventional < 0 -> speedup conventional optimal = Ok (Inf true)) /\
   (conventional == 0 -> speedup conventional optimal = Ok NaN)).
Proof.
  unfold speedup, truediv. split.
  - intros Hnz. destruct (Qeq_bool optimal 0) eqn:E; [|reflexivity].
    apply Qeq_bool_eq in E. contradiction.
  - intros Hz. rewrite (Qeq_eq_bool _ _ Hz). repeat split.
    + intros Hpos. destruct (Qeq_bool conventional 0) eqn:E.
      * apply Qeq_bool_eq in E. rewrite E in Hpos.
        now apply Qlt_irrefl in Hpos.
      * assert (Hle : Qle_bool 0 conventional = true)
          by (apply Qle_bool_iff; now apply Qlt_le_weak).
        now rewrite Hle.
    + intros Hneg. destruct (Qeq_bool conventional 0) eqn:E.
      * apply Qeq_bool_eq in E. rewrite E in Hneg.
        now apply Qlt_irrefl in Hneg.
      * destruct (Qle_bool 0 conventional) eqn:Hle; [|reflexivity].
        apply Qle_bool_iff in Hle.
        exfalso. exact (Qlt_irrefl _ (Qle_lt_trans _ _ _ Hle Hneg)).
    + intros Hc. now rewrite (Qeq_eq_bool _ _ Hc).
Qed.

Lemma speedup_never_raises_witness :
  speedup 292.5 225 = Ok (Finite (292.5 / 225)) /\
  speedup 292.5 0 = Ok (Inf false).
Proof.
  split.
  - apply (proj1 (speedup_never_raises 292.5 225)). discriminate.
  - apply (proj2 (speedup_never_raises 292.5 0)); reflexivity.
Defined.

End EvaluatorProperties.

(* ================================================================== *)
(** ** Cost matrix: the max-metric *)

Lemma nth_map_in (A B : Type) (f : A -> B) (l : list A) (n : nat)
      (d : A) (d' : B) :
  (n < length l)%nat -> nth n (map f l) d' = f (nth n l d).
Proof.
  intros Hn. rewrite (nth_indep _ d' (f d)) by (now rewrite length_map).
  apply map_nth.
Qed.

Section MaxMetric.

Import CostMatrix.

Lemma row_sub_length (a b : list Q) :
  length (row_sub a b) = Nat.min (length a) (length b).
Proof.
  revert b; induction a as [|x a IH]; intros [|y b]; simpl; auto.
Qed.

Lemma row_sub_nth (a b : list Q) (k : nat) :
  (k < length a)%nat -> (k < length b)%nat ->
  nth k (row_sub a b) 0 = nth k a 0 - nth k b 0.
Proof.
  revert b k; induction a as [|x a IH]; intros [|y b] [|k]; simpl;
    intros Ha Hb; try lia; auto.
  apply IH; lia.
Qed.

(** The running maximum dominates its seed and every later element, and
    is one of them. *)
Lemma fold_max_upper (r : list Q) (x : Q) :
  x <= fold_left Qmax r x /\
  (forall k, (k < length r)%nat -> nth k r 0 <= fold_left Qmax r x).
Proof.
  revert x; induction r as [|y r IH]; intros x; simpl.
  - split; [apply Qle_refl | intros k Hk; lia].
  - destruct (IH (Qmax x y)) as [H1 H2]. split.
    + eapply Qle_trans; [apply Q.le_max_l | exact H1].
    + intros [|k] Hk.
      * eapply Qle_trans; [apply Q.le_max_r | exact H1].
      * apply H2. lia.
Qed.

Lemma fold_max_attained (r : list Q) (x : Q) :
  fold_left Qmax r x == x \/
  exists k, (k < length r)%nat /\ fold_left Qmax r x == nth k r 0.
Proof.
  revert x; induction r as [|y r IH]; intros x; simpl.
  - left. reflexivity.
  - destruct (IH (Qmax x y)) as [H|[k [Hk H]]].
    + destruct (Q.max_spec_le x y) as [[_ E]|[_ E]].
      * right. exists 0%nat. split; [lia|]. now rewrite H.
      * left. now rewrite H.
    + right. exists (S k). split; [lia | exact H].
Qed.

Lemma amax_is_max (v : list Q) :
  v <> [] ->
  exists m, amax v = Ok m /\ is_max_of (length v) (fun k => nth k v 0) m.
Proof.
  destruct v as [|x r]; [congruence|]. intros _.
  exists (fold_left Qmax r x). split; [reflexivity|].
  destruct (fold_max_upper r x) as [Hx Hr]. split.
  - destruct (fold_max_attained r x) as [H|[k [Hk H]]].
    + exists 0%nat. split; [simpl; lia | exact H].
    + exists (S k). split; [simpl; lia | exact H].
  - intros [|k] Hk; simpl; [exact Hx | apply Hr; simpl in Hk; lia].
Qed.

(** A maximum is determined by the family, up to [==]. *)
Lemma is_max_of_unique (C : nat) (f g : nat -> Q) (m m' : Q) :
  (forall k, (k < C)%nat -> f k == g k) ->
  is_max_of C f m -> is_max_of C g m' -> m == m'.
Proof.
  intros Hfg [[k [Hk Em]] Hm] [[k' [Hk' Em']] Hm'].
  apply Qle_antisym.
  - rewrite Em, (Hfg k Hk). now apply Hm'.
  - rewrite Em', <- (Hfg k' Hk'). now apply Hm.
Qed.

Lemma is_max_of_ext (C : nat) (f g : nat -> Q) (m : Q) :
  (forall k, (k < C)%nat -> f k = g k) -> is_max_of C f m -> is_max_of C g m.
Proof.
  intros Hfg [[k [Hk Em]] Hm]. split.
  - exists k. split; [exact Hk | now rewrite <- Hfg].
  - intros k' Hk'. rewrite <- Hfg by exact Hk'. now apply Hm.
Qed.

(** What [adj_mat] stores at a pair of rows is the maximum of the
    absolute component differences. *)
Lemma pair_cost_is_max (C : nat) (ai aj : list Q) :
  (1 <= C)%nat -> length ai = C -> length aj = C ->
  exists m, amax (map Qabs (row_sub aj ai)) = Ok m /\
            is_max_of C (fun k => Qabs (nth k ai 0 - nth k aj 0)) m.
Proof.
  intros HC Hi Hj.
  assert (Hlen : length (map Qabs (row_sub aj ai)) = C)
    by (rewrite length_map, row_sub_length; lia).
  destruct (@amax_is_max (map Qabs (row_sub aj ai))) as [m [Em Hm]].
  { intros E. rewrite E in Hlen. simpl in Hlen. lia. }
  exists m. split; [exact Em|]. rewrite Hlen in Hm.
  revert Hm. apply is_max_of_ext. intros k Hk.
  rewrite (nth_map_in Qabs _ 0 0) by (rewrite row_sub_length; lia).
  rewrite row_sub_nth by lia. apply Qabs_Qminus.
Qed.

Lemma mapM_map (A B C : Type) (f : B -> result C) (g : A -> B) (l : list A) :
  mapM f (map g l) = mapM (fun x => f (g x)) l.
Proof.
  induction l as [|x r IH]; simpl; [reflexivity | now rewrite IH].
Qed.

Lemma mapM_ext_in (A B : Type) (f g : A -> result B) (l : list A) :
  (forall x, In x l -> f x = g x) -> mapM f l = mapM g l.
Proof.
  induction l as [|x r IH]; intros H; simpl; [reflexivity|].
  rewrite (H x (or_introl eq_refl)), IH; [reflexivity|].
  intros y Hy. apply H. now right.
Qed.

Lemma adj_mat_unfold (angles : matrix) :
  adj_mat angles =
  mapM (fun ai => mapM (fun aj => amax (map Qabs (row_sub aj ai))) angles)
       angles.
Proof.
  unfold adj_mat, max_axis2, np_abs, angular_diff.
  rewrite map_map, mapM_map. apply mapM_ext_in. intros ai _.
  now rewrite map_map, mapM_map.
Qed.

(** On settings of one positive arity [adj_mat] returns a square matrix
    whose entry [(i, j)] is the maximum for rows [i] and [j]. *)
Lemma adj_mat_entries (C : nat) (settings : matrix) :
  (1 <= C)%nat -> arity C settings ->
  exists M, adj_mat settings = Ok M /\
    square (length settings) M /\
    forall i j, (i < length settings)%nat -> (j < length settings)%nat ->
      is_max_of C
        (fun k => Qabs (nth k (nth i settings []) 0
                        - nth k (nth j settings []) 0))
        (entry M i j).
Proof.
  intros HC Har. unfold arity in Har. rewrite Forall_forall in Har.
  pose (cost := fun ai aj : list Q =>
                  match amax (map Qabs (row_sub aj ai)) with
                  | Ok m => m
                  | Raise _ => 0
                  end).
  assert (Hcost : forall ai aj, In ai settings -> In aj settings ->
            amax (map Qabs (row_sub aj ai)) = Ok (cost ai aj) /\
            is_max_of C (fun k => Qabs (nth k ai 0 - nth k aj 0)) (cost ai aj)).
  { intros ai aj Hi Hj.
    destruct (@pair_cost_is_max C ai aj HC (Har _ Hi) (Har _ Hj))
      as [m [Em Hm]].
    unfold cost. rewrite Em. now split. }
  exists (map (fun ai => map (fun aj => cost ai aj) settings) settings).
  split; [|split; [split|]].
  - rewrite adj_mat_unfold. apply mapM_Ok_map. intros ai Hi.
    apply mapM_Ok_map. intros aj Hj. now apply Hcost.
  - now rewrite length_map.
  - apply Forall_forall. intros row Hrow.
    apply in_map_iff in Hrow as [ai [<- _]]. now rewrite length_map.
  - intros i j Hi Hj. unfold entry.
    rewrite (nth_map_in _ _ [] []) by exact Hi.
    rewrite (nth_map_in _ _ [] 0) by exact Hj.
    apply Hcost; now apply nth_In.
Qed.

End MaxMetric.


(** C4: for settings that all have [C >= 1] components, [adj_mat]
    returns an NxN matrix whose entry [(i, j)] is the maximum over the
    components [k] of [|settings[i][k] - settings[j][k]|]; hence the
    matrix is symmetric and its diagonal is zero. *)
Theorem adj_mat_max_metric (C : nat) (settings : matrix) :
  (1 <= C)%nat -> arity C settings ->
  exists M, CostMatrix.adj_mat settings = Ok M /\
    square (length settings) M /\
    (forall i j, (i < length settings)%nat -> (j < length settings)%nat ->
       is_max_of C
         (fun k => Qabs (nth k (nth i settings []) 0
                         - nth k (nth j settings []) 0))
         (entry M i j)) /\
    (forall i j, (i < length settings)%nat -> (j < length settings)%nat ->
       entry M i j == entry M j i) /\
    (forall i, (i < length settings)%nat -> entry M i i == 0).
Proof.
  intros HC Har.
  destruct (adj_mat_entries HC Har) as [M [EM [Hsq Hmax]]].
  exists M. split; [exact EM|]. split; [exact Hsq|]. split; [exact Hmax|].
  split.
  - intros i j Hi Hj.
    refine (is_max_of_unique _ (Hmax i j Hi Hj) (Hmax j i Hj Hi)).
    intros k _. rewrite Qabs_Qminus. reflexivity.
  - intros i Hi.
    destruct (Hmax i i Hi Hi) as [[k [_ Ek]] _].
    rewrite Ek. unfold Qminus. rewrite Qplus_opp_r. reflexivity.
Qed.

Lemma adj_mat_max_metric_witness :
  exists M, CostMatrix.adj_mat [[0; 45]; [22.5; 0]] = Ok M /\
            entry M 0 1 == entry M 1 0 /\ entry M 1 1 == 0.
Proof.
  destruct (@adj_mat_max_metric 2 [[0; 45]; [22.5; 0]])
    as [M [EM [_ [_ [Hsym Hdiag]]]]].
  - lia.
  - repeat constructor.
  - exists M. split; [exact EM|]. split.
    + apply Hsym; simpl; lia.
    + apply Hdiag; simpl; lia.
Defined.

(* ================================================================== *)
(** ** Configuration space: the Cartesian power *)

Section FlatMapBlocks.

Variables A B : Type.

(** Position [idx] of a [flat_map] with blocks of one length [b] is
    position [idx mod b] of block [idx / b]. *)
Lemma nth_flat_map_blocks (f : A -> list B) (b : nat) (l : list A)
      (idx : nat) (d : B) (d' : A) :
  (forall x, length (f x) = b) -> (idx < length l * b)%nat ->
  nth idx (flat_map f l) d = nth (idx mod b) (f (nth (idx / b) l d')) d.
Proof.
  intros Hb. revert idx. induction l as [|x r IH]; intros idx Hidx;
    [simpl in Hidx; lia|].
  assert (Hpos : b <> 0%nat) by (intros ->; simpl in Hidx; lia).
  simpl flat_map. destruct (Nat.lt_ge_cases idx b) as [Hlt|Hge].
  - rewrite app_nth1 by (now rewrite Hb).
    rewrite Nat.div_small, Nat.mod_small by exact Hlt. reflexivity.
  - rewrite app_nth2 by (rewrite Hb; exact Hge). rewrite Hb.
    rewrite IH by (simpl in Hidx; lia).
    replace idx with ((idx - b) + 1 * b)%nat at 3 4 by lia.
    rewrite Nat.div_add by exact Hpos. rewrite Nat.Div0.mod_add.
    replace (((idx - b) / b) + 1)%nat with (S ((idx - b) / b)) by lia.
    reflexivity.
Qed.

Lemma flat_map_blocks_length (f : A -> list B) (b : nat) (l : list A) :
  (forall x, length (f x) = b) -> length (flat_map f l) = (length l * b)%nat.
Proof.
  intros Hb. induction l as [|x r IH]; simpl; [reflexivity|].
  now rewrite length_app, Hb, IH.
Qed.

End FlatMapBlocks.

Section CartesianPower.

Import Builder.

Variable A : Type.

Lemma product_rec_length (pool : list A) (n : nat) :
  length (product_rec pool n) = (length pool ^ n)%nat.
Proof.
  induction n as [|n IH]; [reflexivity|]. cbn [product_rec].
  rewrite (@flat_map_blocks_length _ _ _ (length pool))
    by (intros x; now rewrite length_map).
  rewrite IH. simpl. lia.
Qed.

Lemma digit_step (b n idx k : nat) :
  (k < n)%nat -> digit b (S n) idx k = digit b n (idx / b) k.
Proof.
  intros Hk. unfold digit.
  replace (S n - 1 - k)%nat with (S (n - 1 - k)) by lia.
  now rewrite Nat.pow_succ_r', Nat.Div0.div_div.
Qed.

Lemma digit_last (b n idx : nat) : digit b (S n) idx n = (idx mod b)%nat.
Proof.
  unfold digit. replace (S n - 1 - n)%nat with 0%nat by lia.
  now rewrite Nat.pow_0_r, Nat.div_1_r.
Qed.

(** Element [idx] of the [n]-fold product picks, for each factor, the
    pool element named by the corresponding base-[b] digit of [idx]. *)
Lemma product_rec_nth (pool : list A) (n idx : nat) (d : A) :
  (idx < length pool ^ n)%nat ->
  nth idx (product_rec pool n) [] =
  map (fun k => nth (digit (length pool) n idx k) pool d) (seq 0 n).
Proof.
  revert idx. induction n as [|n IH]; intros idx Hidx.
  - simpl in *. now replace idx with 0%nat by lia.
  - cbn [product_rec].
    rewrite (@nth_flat_map_blocks _ _ _ (length pool) _ _ _ [])
      by (intros; rewrite ?length_map, ?product_rec_length;
          simpl in Hidx; auto; lia).
    assert (Hb : length pool <> 0%nat)
      by (intros E; rewrite E in Hidx; simpl in Hidx; lia).
    assert (Hq : (idx / length pool < length pool ^ n)%nat).
    { apply Nat.Div0.div_lt_upper_bound. simpl in Hidx. lia. }
    rewrite (nth_map_in _ _ d []) by (apply Nat.mod_upper_bound; exact Hb).
    rewrite (IH _ Hq). rewrite seq_S, map_app. simpl map.
    rewrite digit_last. f_equal.
    apply map_ext_in. intros k Hk. apply in_seq in Hk.
    now rewrite digit_step by lia.
Qed.

Lemma product_rec_shape (pool : list A) (n : nat) (x : list A) :
  In x (product_rec pool n) -> length x = n /\ Forall (fun y => In y pool) x.
Proof.
  revert x. induction n as [|n IH]; cbn [product_rec]; intros x Hx.
  - destruct Hx as [<-|[]]. split; [reflexivity | constructor].
  - apply in_flat_map in Hx as [x' [Hx' Hx]].
    apply in_map_iff in Hx as [y [<- Hy]].
    destruct (IH _ Hx') as [Hlen Hall]. split.
    + rewrite length_app, Hlen. simpl. lia.
    + apply Forall_app. split; [exact Hall | repeat constructor; exact Hy].
Qed.

End CartesianPower.

Section NQubitAngles.

Import Builder.

Lemma concat_length_uniform (c : nat) (pool x : matrix) :
  arity c pool -> Forall (fun y => In y pool) x ->
  length (concat x) = (c * length x)%nat.
Proof.
  intros Hc Hx. unfold arity in Hc. rewrite Forall_forall in Hc.
  induction Hx as [|y x Hy _ IH]; simpl; [lia|].
  rewrite length_app, IH, (Hc y Hy). lia.
Qed.

Lemma forallb_same_length (c : nat) (r : list Q) (rest : matrix) :
  length r = c -> (forall r', In r' rest -> length r' = c) ->
  forallb (fun r' => Nat.eqb (length r') (length r)) rest = true.
Proof.
  intros Hr Hrest. apply forallb_forall. intros r' Hr'.
  apply Nat.eqb_eq. rewrite Hr. now apply Hrest.
Qed.

Lemma power_row_length (c n : nat) (base : matrix) (s : list Q) :
  arity c base -> In s (map (@concat Q) (product_rec base n)) ->
  length s = (c * n)%nat.
Proof.
  intros Hc Hs. apply in_map_iff in Hs as [x [<- Hx]].
  destruct (product_rec_shape _ _ _ Hx) as [Hlen Hall].
  now rewrite (concat_length_uniform Hc Hall), Hlen.
Qed.

Lemma product_nonneg (A : Type) (pool : list A) (repeat : Z) :
  (0 <= repeat)%Z ->
  product pool repeat = Ok (product_rec pool (Z.to_nat repeat)).
Proof.
  intros H. unfold product.
  assert (H63 : (- 2 ^ 63 < 0)%Z) by reflexivity.
  destruct (Z.ltb_spec repeat (- 2 ^ 63)) as [H1|_]; [lia|].
  destruct (Z.ltb_spec repeat 0) as [H2|_]; [lia | reflexivity].
Qed.

(** For a positive count and a non-empty table of one arity,
    [nqubit_angles] returns the rows of the Cartesian power, each
    flattened. *)
Lemma nqubit_angles_power (c n : nat) (base : matrix) :
  (1 <= n)%nat -> base <> [] -> arity c base ->
  nqubit_angles base (Z.of_nat n) = Ok (map (@concat Q) (product_rec base n)).
Proof.
  intros Hn Hbase Hc. unfold nqubit_angles.
  rewrite product_nonneg by lia.
  rewrite Nat2Z.id. cbn [bind].
  rewrite (@mapM_Ok_map _ _ hstack (@concat Q)).
  - cbn [bind].
    assert (Hrows : forall row, In row (map (@concat Q) (product_rec base n)) ->
                                length row = (c * n)%nat).
    { intros row Hrow. exact (@power_row_length c n base row Hc Hrow). }
    assert (Hlen : length (map (@concat Q) (product_rec base n)) <> 0%nat).
    { rewrite length_map, product_rec_length. apply Nat.pow_nonzero.
      destruct base; [congruence | discriminate]. }
    destruct (map (@concat Q) (product_rec base n)) as [|r rest];
      [simpl in Hlen; congruence|].
    unfold vstack.
    rewrite (@forallb_same_length (c * n)%nat);
      [reflexivity | apply Hrows; now left | intros; apply Hrows; now right].
  - intros x Hx. destruct (product_rec_shape _ _ _ Hx) as [Hlen _].
    destruct x; [simpl in Hlen; lia | reflexivity].
Qed.

(** C7: [nqubit_angles] fails for every qubit count below 1, with an
    exception that refuses the argument: a negative count is refused by
    [product], with [ValueError], or with [OverflowError] when the count
    lies below the machine's index range ([n < -2^63]); for the count 0
    the single empty tuple of the product is refused by [hstack] with
    [ValueError]. *)
Theorem nqubit_angles_rejects_nonpositive (base : matrix) (n : Z) :
  (n < 1)%Z ->
  ((- 2 ^ 63 <= n)%Z -> nqubit_angles base n = Raise ValueError) /\
  ((n < - 2 ^ 63)%Z -> nqubit_angles base n = Raise OverflowError).
Proof.
  intros Hn. unfold nqubit_angles, product.
  assert (H63 : (- 2 ^ 63 < 0)%Z) by reflexivity.
  destruct (Z.ltb_spec n (- 2 ^ 63)) as [Hlo|Hlo].
  - split; [lia | reflexivity].
  - split; [|lia]. intros _.
    destruct (Z.ltb_spec n 0) as [_|H0]; [reflexivity|].
    replace n with 0%Z by lia. reflexivity.
Qed.

Lemma nqubit_angles_rejects_nonpositive_witness :
  nqubit_angles ANGLES_6s 0 = Raise ValueError /\
  nqubit_angles ANGLES_6s (-3) = Raise ValueError /\
  nqubit_angles ANGLES_6s (- 2 ^ 63 - 1) = Raise OverflowError.
Proof.
  split; [|split].
  - apply (proj1 (@nqubit_angles_rejects_nonpositive ANGLES_6s 0
                    ltac:(reflexivity))). discriminate.
  - apply (proj1 (@nqubit_angles_rejects_nonpositive ANGLES_6s (-3)
                    ltac:(reflexivity))). discriminate.
  - apply (proj2 (@nqubit_angles_rejects_nonpositive ANGLES_6s (- 2 ^ 63 - 1)
                    ltac:(reflexivity))). reflexivity.
Defined.

(** C6: for every qubit count [n >= 1], [nqubit_angles ANGLES_6s n] has
    exactly [6^n] settings of [2n] components each, and the setting at
    index [idx] is the concatenation of the base settings selected by the
    [n] base-6 digits of [idx], most significant digit (first qubit)
    first, so that the last qubit varies fastest. *)
Theorem nqubit_angles_enumeration (n : nat) :
  (1 <= n)%nat ->
  exists angles, nqubit_angles ANGLES_6s (Z.of_nat n) = Ok angles /\
    length angles = (6 ^ n)%nat /\
    (forall s, In s angles -> length s = (2 * n)%nat) /\
    (forall idx, (idx < 6 ^ n)%nat ->
       nth idx angles [] = selected ANGLES_6s n idx).
Proof.
  intros Hn.
  assert (Har : arity 2 ANGLES_6s) by (repeat constructor).
  exists (map (@concat Q) (product_rec ANGLES_6s n)).
  split.
  { apply (@nqubit_angles_power 2); [exact Hn | discriminate | exact Har]. }
  split; [now rewrite length_map, product_rec_length|].
  split.
  - intros s Hs. exact (@power_row_length 2 n _ s Har Hs).
  - intros idx Hidx.
    rewrite (nth_map_in _ _ [] []) by (now rewrite product_rec_length).
    unfold selected. f_equal. now apply product_rec_nth.
Qed.

Lemma nqubit_angles_enumeration_witness :
  exists angles, nqubit_angles ANGLES_6s 2 = Ok angles /\
    nth 13 angles [] = [22.5; 0; 45; 0].
Proof.
  destruct (@nqubit_angles_enumeration 2) as [angles [E [_ [_ Hnth]]]];
    [lia|].
  exists angles. split; [exact E|].
  rewrite Hnth by (simpl; lia). reflexivity.
Defined.

End NQubitAngles.

(* ================================================================== *)
(** ** Angles and costs as multiples of 22.5 *)

Section Steps.

Import Builder CostMatrix Serializer.

Lemma steps_of_22_5_Qeq (lo hi : Z) (q q' : Q) :
  q == q' -> steps_of_22_5 lo hi q -> steps_of_22_5 lo hi q'.
Proof.
  intros E [z [Hz Hq]]. exists z. split; [exact Hz | now rewrite <- E].
Qed.

Ltac step_by z := exists z; split; [lia | vm_compute; reflexivity].

Lemma base_angles_steps (s : list Q) (x : Q) :
  In s ANGLES_6s -> In x s -> steps_of_22_5 (-2) 2 x.
Proof.
  intros Hs Hx. simpl in Hs.
  repeat (destruct Hs as [<-|Hs]; [simpl in Hx|]); try contradiction;
    repeat (destruct Hx as [<-|Hx]); try contradiction;
    first [step_by 0%Z | step_by 1%Z | step_by 2%Z
          | step_by (-1)%Z | step_by (-2)%Z].
Qed.

Lemma steps_abs_diff (a b : Q) :
  steps_of_22_5 (-2) 2 a -> steps_of_22_5 (-2) 2 b ->
  steps_of_22_5 0 4 (Qabs (a - b)).
Proof.
  intros [za [Hza Ea]] [zb [Hzb Eb]].
  destruct (Z_le_gt_dec zb za) as [Hle|Hgt].
  - exists (za - zb)%Z. split; [lia|].
    assert (H : inject_Z zb <= inject_Z za) by (now rewrite <- Zle_Qle).
    rewrite Qabs_pos by (rewrite Ea, Eb; lra).
    unfold Zminus. rewrite inject_Z_plus, inject_Z_opp, Ea, Eb. lra.
  - exists (zb - za)%Z. split; [lia|].
    assert (H : inject_Z za <= inject_Z zb) by (rewrite <- Zle_Qle; lia).
    rewrite Qabs_neg by (rewrite Ea, Eb; lra).
    unfold Zminus. rewrite inject_Z_plus, inject_Z_opp, Ea, Eb. lra.
Qed.

Lemma steps_bounds (q : Q) : steps_of_22_5 0 4 q -> 0 <= q <= 90.
Proof.
  intros [z [Hz Eq]].
  assert (H0 : inject_Z 0 <= inject_Z z) by (rewrite <- Zle_Qle; lia).
  assert (H4 : inject_Z z <= inject_Z 4) by (rewrite <- Zle_Qle; lia).
  change (inject_Z 0) with 0 in H0. change (inject_Z 4) with 4 in H4.
  rewrite Eq. split; lra.
Qed.

(** [int] of a float that is a whole number is that number. *)
Lemma int_of_float_exact (x : Q) (w : Z) :
  x == inject_Z w -> int_of_float x = w.
Proof.
  destruct x as [p d]. unfold Qeq, inject_Z, int_of_float. simpl.
  rewrite Z.mul_1_r. intros ->. now apply Z.quot_mul.
Qed.

Lemma steps_doubled (q : Q) :
  steps_of_22_5 0 4 q ->
  exists w : Z, q * 2 == inject_Z w /\ int_of_float (q * 2) = w.
Proof.
  intros [z [_ Eq]]. exists (45 * z)%Z.
  assert (E : q * 2 == inject_Z (45 * z)).
  { rewrite inject_Z_mult, Eq. change (inject_Z 45) with 45. lra. }
  split; [exact E | now apply int_of_float_exact].
Qed.

(** Every component of every setting of the [n]-qubit space is one of
    the base angles. *)
Lemma power_components (n : nat) (s : list Q) (x : Q) :
  In s (map (@concat Q) (product_rec ANGLES_6s n)) -> In x s ->
  steps_of_22_5 (-2) 2 x.
Proof.
  intros Hs Hx. apply in_map_iff in Hs as [t [<- Ht]].
  destruct (product_rec_shape _ _ _ Ht) as [_ Hall].
  apply in_concat in Hx as [b [Hb Hxb]].
  rewrite Forall_forall in Hall. exact (base_angles_steps _ (Hall b Hb) Hxb).
Qed.

End Steps.

(** C10: the half-wave-plate angles of the base table are 0, 45, 22.5
    and -22.5 and its quarter-wave-plate angles are 0, 45 and -45; for
    every [n >= 1] every entry of [adj_mat (nqubit_angles ANGLES_6s n)]
    is a whole multiple of 22.5 in the interval [0, 90], so its double is
    an integer and the integer printed for the doubled entry is that
    double. *)
Theorem pipeline_costs_multiples_of_22_5 :
  (forall x, In x (map (fun s => nth 0 s 0) Builder.ANGLES_6s)
             <-> In x [0; 45; 22.5; -22.5]) /\
  (forall x, In x (map (fun s => nth 1 s 0) Builder.ANGLES_6s)
             <-> In x [0; 45; -45]) /\
  forall n : nat, (1 <= n)%nat ->
    exists angles M,
      Builder.nqubit_angles Builder.ANGLES_6s (Z.of_nat n) = Ok angles /\
      CostMatrix.adj_mat angles = Ok M /\
      square (6 ^ n) M /\
      forall i j, (i < 6 ^ n)%nat -> (j < 6 ^ n)%nat ->
        steps_of_22_5 0 4 (entry M i j) /\
        0 <= entry M i j <= 90 /\
        exists w : Z, entry M i j * 2 == inject_Z w /\
                      Serializer.int_of_float (entry M i j * 2) = w.
Proof.
  split; [|split].
  - intros x. simpl. tauto.
  - intros x. simpl. tauto.
  - intros n Hn.
    set (angles := map (@concat Q) (Builder.product_rec Builder.ANGLES_6s n)).
    assert (Hbase : arity 2 Builder.ANGLES_6s) by (repeat constructor).
    assert (Hlen : length angles = (6 ^ n)%nat)
      by (unfold angles; now rewrite length_map, product_rec_length).
    assert (Har : forall s, In s angles -> length s = (2 * n)%nat)
      by (intros s Hs; exact (@power_row_length 2 n _ s Hbase Hs)).
    destruct (@adj_mat_entries (2 * n) angles) as [M [EM [Hsq Hmax]]];
      [lia | now apply Forall_forall |].
    exists angles, M. rewrite Hlen in *.
    split.
    { apply (@nqubit_angles_power 2);
        [exact Hn | discriminate | exact Hbase]. }
    split; [exact EM|]. split; [exact Hsq|].
    intros i j Hi Hj.
    assert (Hstep : steps_of_22_5 0 4 (entry M i j)).
    { destruct (Hmax i j Hi Hj) as [[k [Hk Ek]] _].
      apply (steps_of_22_5_Qeq (Qeq_sym _ _ Ek)).
      assert (Hin : forall r, (r < 6 ^ n)%nat -> In (nth r angles []) angles)
        by (intros r Hr; apply nth_In; now rewrite Hlen).
      apply steps_abs_diff.
      - apply (@power_components n (nth i angles [])); [now apply Hin|].
        apply nth_In. now rewrite (Har _ (Hin i Hi)).
      - apply (@power_components n (nth j angles [])); [now apply Hin|].
        apply nth_In. now rewrite (Har _ (Hin j Hj)). }
    split; [exact Hstep|].
    split; [now apply steps_bounds | now apply steps_doubled].
Qed.

Lemma pipeline_costs_multiples_of_22_5_witness :
  exists angles M,
    Builder.nqubit_angles Builder.ANGLES_6s 1 = Ok angles /\
    CostMatrix.adj_mat angles = Ok M /\
    0 <= entry M 1 3 <= 90.
Proof.
  destruct (proj2 (proj2 pipeline_costs_multiples_of_22_5) 1%nat)
    as [angles [M [EA [EM [_ H]]]]]; [lia|].
  exists angles, M. split; [exact EA|]. split; [exact EM|].
  apply (H 1%nat 3%nat); simpl; lia.
Defined.

(* ================================================================== *)
(** ** Problem serialiser: in-place doubling and truncation *)

Section SerializerProperties.

Import Serializer.

Lemma entry_overflow_row (M : matrix) (i j : nat) :
  (length M <= i)%nat -> entry M i j = 0.
Proof.
  intros H. unfold entry. rewrite (nth_overflow M [] H). now destruct j.
Qed.

Lemma entry_imul_in_range (X : matrix) (k : Q) (i j : nat) :
  (i < length X)%nat -> (j < length (nth i X []))%nat ->
  entry (imul X k) i j = entry X i j * k.
Proof.
  intros Hi Hj. unfold entry, imul.
  rewrite (nth_map_in _ _ [] []) by exact Hi.
  now rewrite (nth_map_in _ _ 0 0) by exact Hj.
Qed.

Lemma entry_imul (X : matrix) (k : Q) (i j : nat) :
  entry (imul X k) i j == entry X i j * k.
Proof.
  destruct (Nat.lt_ge_cases i (length X)) as [Hi|Hi].
  - destruct (Nat.lt_ge_cases j (length (nth i X []))) as [Hj|Hj].
    + now rewrite entry_imul_in_range.
    + unfold entry, imul. rewrite (nth_map_in _ _ [] []) by exact Hi.
      rewrite !nth_overflow by (rewrite ?length_map; exact Hj). ring.
  - rewrite !entry_overflow_row by (unfold imul; rewrite ?length_map; exact Hi).
    ring.
Qed.

Lemma printed_nth (X : matrix) (i j : nat) :
  (i < length X)%nat -> (j < length (nth i X []))%nat ->
  nth j (nth i (printed X) []) 0%Z = int_of_float (entry X i j).
Proof.
  intros Hi Hj. unfold printed, entry.
  rewrite (nth_map_in _ _ [] []) by exact Hi.
  now rewrite (nth_map_in _ _ 0 0%Z) by exact Hj.
Qed.

Lemma imul_shape (X : matrix) (k : Q) :
  map (@length Q) (imul X k) = map (@length Q) X.
Proof.
  unfold imul. rewrite map_map. apply map_ext. intros row. apply length_map.
Qed.

Lemma printed_shape (X : matrix) :
  map (@length Z) (printed X) = map (@length Q) X.
Proof.
  unfold printed. rewrite map_map. apply map_ext. intros row. apply length_map.
Qed.

Lemma int_of_float_truncation (q : Q) : truncation q (int_of_float q).
Proof.
  destruct q as [p d]. unfold truncation, int_of_float, Qle, Qlt, inject_Z.
  simpl. rewrite !Z.mul_1_r.
  pose proof (Z.quot_rem' p (Z.pos d)) as E.
  split; intros Hq; assert (Hp : (0 <= p \/ p <= 0)%Z) by lia.
  - pose proof (Z.rem_bound_pos_pos p (Z.pos d)). nia.
  - pose proof (Z.rem_bound_pos_neg p (Z.pos d)). nia.
Qed.

Lemma finite_fits (x : Q) : finite x = true <-> fits_float64 x.
Proof. unfold finite, fits_float64. apply Qle_bool_iff. Qed.

Lemma fmt_d_fits (x : Q) :
  fits_float64 x -> fmt_d x = Ok (str_int (int_of_float x)).
Proof. intros H. unfold fmt_d. now rewrite (proj2 (finite_fits x) H). Qed.

Lemma fmt_d_overflow (x : Q) :
  ~ fits_float64 x -> fmt_d x = Raise OverflowError.
Proof.
  intros H. unfold fmt_d. destruct (finite x) eqn:E; [|reflexivity].
  destruct H. now apply finite_fits.
Qed.

Lemma fmt_d_Raise (x : Q) (e : exn) : fmt_d x = Raise e -> e = OverflowError.
Proof. unfold fmt_d. destruct (finite x); congruence. Qed.

Lemma row_fits (row : list Q) :
  Forall fits_float64 row ->
  mapM fmt_d row = Ok (map str_int (map int_of_float row)).
Proof.
  intros H. rewrite map_map. apply mapM_Ok_map. intros x Hx.
  apply fmt_d_fits. exact (proj1 (Forall_forall _ _) H x Hx).
Qed.

Lemma row_overflow (row : list Q) :
  Exists (fun x => ~ fits_float64 x) row ->
  mapM fmt_d row = Raise OverflowError.
Proof.
  induction 1 as [x r Hx | x r _ IH]; simpl.
  - now rewrite (fmt_d_overflow Hx).
  - destruct (fmt_d x) as [s|e] eqn:E; simpl.
    + now rewrite IH.
    + now rewrite (fmt_d_Raise _ E).
Qed.

Lemma savetxt_fits (fname header footer : string) (X : matrix) (w : world) :
  Forall (Forall fits_float64) X ->
  savetxt fname X header footer w =
  Ok (write_file fname
        (header ++ nl
         ++ String.concat EmptyString
              (map (fun row => join " " (map str_int row) ++ nl) (printed X))
         ++ footer ++ nl)%string w).
Proof.
  intros H. unfold savetxt, printed.
  rewrite (@mapM_Ok_map _ _ _
             (fun row => join " " (map str_int (map int_of_float row))
                         ++ nl)%string).
  - cbn [bind]. now rewrite map_map.
  - intros row Hrow.
    now rewrite (row_fits (proj1 (Forall_forall _ _) H row Hrow)).
Qed.

Lemma savetxt_overflow (fname header footer : string) (X : matrix)
      (w : world) :
  Exists (Exists (fun x => ~ fits_float64 x)) X ->
  savetxt fname X header footer w = Raise OverflowError.
Proof.
  intros H. unfold savetxt.
  induction H as [row r Hrow | row r _ IH]; cbn [mapM].
  - now rewrite (row_overflow Hrow).
  - destruct (mapM fmt_d row) as [cells|e] eqn:Er; cbn [bind].
    + destruct (mapM _ r) as [rows|e]; cbn [bind] in *; congruence.
    + f_equal. revert Er. apply mapM_Raise_class.
      intros x e' _. apply fmt_d_Raise.
Qed.

Lemma doubles_fit_imul (M : matrix) :
  doubles_fit M -> Forall (Forall fits_float64) (imul M 2).
Proof.
  unfold doubles_fit, imul. intros H. apply Forall_map.
  revert H. apply Forall_impl. intros row Hrow. now apply Forall_map.
Qed.

Lemma double_overflows_imul (M : matrix) :
  double_overflows M ->
  Exists (Exists (fun x => ~ fits_float64 x)) (imul M 2).
Proof.
  unfold double_overflows, imul. intros H. apply Exists_map.
  revert H. apply Exists_impl. intros row Hrow. now apply Exists_map.
Qed.

(** Every matrix is in one of the two cases. *)
Lemma fit_or_overflow (M : matrix) : doubles_fit M \/ double_overflows M.
Proof.
  assert (Hrow : forall row : list Q,
            Forall (fun x => fits_float64 (x * 2)) row \/
            Exists (fun x => ~ fits_float64 (x * 2)) row).
  { induction row as [|x row IH]; [left; constructor|].
    destruct (Qlt_le_dec float64_max (Qabs (x * 2))) as [Hbig|Hfit].
    - right. apply Exists_cons_hd. unfold fits_float64.
      now apply Qlt_not_le.
    - destruct IH as [IH|IH].
      + left. now constructor.
      + right. now apply Exists_cons_tl. }
  unfold doubles_fit, double_overflows.
  induction M as [|row M IH]; [left; constructor|].
  destruct (Hrow row) as [Hr|Hr].
  - destruct IH as [IH|IH].
    + left. now constructor.
    + right. now apply Exists_cons_tl.
  - right. now apply Exists_cons_hd.
Qed.

(** Entries between -90 and 90, as the pipeline's are, fit when
    doubled. *)
Lemma doubles_fit_bounded (N : nat) (M : matrix) :
  square N M ->
  (forall i j, (i < N)%nat -> (j < N)%nat ->
               -(90) <= entry M i j <= 90) ->
  doubles_fit M.
Proof.
  intros [HN Hrows] Hb. unfold doubles_fit.
  apply Forall_forall. intros row Hrow.
  destruct (In_nth _ _ [] Hrow) as [i [Hi Ei]].
  pose proof (proj1 (Forall_forall _ _) Hrows row Hrow) as Hlen.
  cbv beta in Hlen.
  apply Forall_forall. intros x Hx.
  destruct (In_nth _ _ 0 Hx) as [j [Hj Ej]].
  assert (Hx90 : -(90) <= x <= 90).
  { rewrite <- Ej, <- Ei. apply (Hb i j); lia. }
  unfold fits_float64. apply Qabs_Qle_condition.
  assert (Hbig : 180 <= float64_max) by (vm_compute; discriminate).
  split; lra.
Qed.

Lemma save_tsp_returns (filename comment : string) (a : ref) (w : world) :
  doubles_fit (heap w a) ->
  save_tsp filename a comment w =
  Ok (write_file filename
        (tsp_text filename comment (printed (imul (heap w a) 2)))
        (store a (imul (heap w a) 2) w)).
Proof.
  intros H. unfold save_tsp. cbn [heap store]. rewrite Nat.eqb_refl.
  rewrite savetxt_fits by now apply doubles_fit_imul.
  unfold tsp_text, printed, imul, len. now rewrite !length_map.
Qed.

Lemma save_tsp_overflow (filename comment : string) (a : ref) (w : world) :
  double_overflows (heap w a) ->
  save_tsp filename a comment w = Raise OverflowError.
Proof.
  intros H. unfold save_tsp. cbn [heap store]. rewrite Nat.eqb_refl.
  now apply savetxt_overflow, double_overflows_imul.
Qed.

Lemma save_tsp_Ok_inv (filename comment : string) (a : ref) (w w' : world) :
  save_tsp filename a comment w = Ok w' ->
  exists text,
    w' = write_file filename text (store a (imul (heap w a) 2) w).
Proof.
  unfold save_tsp, savetxt. cbn [heap store]. rewrite Nat.eqb_refl.
  destruct (mapM _ (imul (heap w a) 2)) as [rows|e]; cbn [bind];
    [|discriminate].
  intros E. injection E as <-. eexists. reflexivity.
Qed.

End SerializerProperties.

(** C1, as stated, does not hold: [save_tsp] changes the matrix it is
    given.  The array [[0, 45], [45, 0]] holds 90 at entry (0, 1) after
    the call. *)
Lemma save_tsp_modifies_argument :
  ~ (forall (filename comment : string) (a : ref) (w w' : world),
       Serializer.save_tsp filename a comment w = Ok w' ->
       forall i j, entry (heap w' a) i j == entry (heap w a) i j).
Proof.
  intros H.
  pose (w := World (fun _ => [[0; 45]; [45; 0]]) (fun _ => None)).
  specialize (H "1q_6s.tsp"%string "six-state"%string 0%nat w _ eq_refl
                0%nat 1%nat).
  vm_compute in H. discriminate H.
Qed.

(** C1, amended: [save_tsp] overwrites the array it is given in place.
    When every doubled entry lies within the [float64] range the call
    returns, and afterwards the array has the same shape and every entry
    is twice its previous value, while every other array and every other
    file is as before; the doubled array is what is written to the
    file (its entries as integers, for a file name without an extension
    of a compressed format).  When some doubled entry lies beyond that
    range the call raises [OverflowError]. *)
Theorem save_tsp_doubles_in_place
        (filename comment : string) (a : ref) (w : world) :
  (doubles_fit (heap w a) ->
   exists w', Serializer.save_tsp filename a comment w = Ok w' /\
     map (@length Q) (heap w' a) = map (@length Q) (heap w a) /\
     (forall i j, entry (heap w' a) i j == entry (heap w a) i j * 2) /\
     (forall r, r <> a -> heap w' r = heap w r) /\
     (forall f, f <> filename -> disk w' f = disk w f) /\
     (uncompressed filename ->
      disk w' filename
      = Some (tsp_text filename comment
                (Serializer.printed (heap w' a))))) /\
  (double_overflows (heap w a) ->
   Serializer.save_tsp filename a comment w = Raise OverflowError).
Proof.
  split; [|apply save_tsp_overflow].
  intros Hfit.
  eexists. split; [now apply save_tsp_returns|]. simpl heap. simpl disk.
  rewrite Nat.eqb_refl. split; [|split; [|split; [|split]]].
  - apply imul_shape.
  - intros i j. apply entry_imul.
  - intros r Hr. now rewrite (proj2 (Nat.eqb_neq r a) Hr).
  - intros f Hf. now rewrite (proj2 (String.eqb_neq f filename) Hf).
  - intros _. now rewrite String.eqb_refl.
Qed.

Lemma save_tsp_doubles_in_place_witness :
  (exists w',
     Serializer.save_tsp "1q_6s.tsp" 0%nat "six-state"
       (World (fun _ => [[0; 45]; [45; 0]]) (fun _ => None)) = Ok w' /\
     entry (heap w' 0%nat) 0 1 == 90 /\ heap w' 1%nat = [[0; 45]; [45; 0]] /\
     disk w' "1q_6s.tsp"%string
     = Some (tsp_text "1q_6s.tsp" "six-state"
               (Serializer.printed (heap w' 0%nat)))) /\
  Serializer.save_tsp "1q_6s.tsp" 0%nat "six-state"
    (World (fun _ => [[inject_Z (2 ^ 1023)]]) (fun _ => None))
  = Raise OverflowError.
Proof.
  split.
  - destruct (proj1 (save_tsp_doubles_in_place "1q_6s.tsp" "six-state" 0%nat
                       (World (fun _ => [[0; 45]; [45; 0]]) (fun _ => None))))
      as [w' [E [_ [Hdouble [Hframe [_ Hfile]]]]]].
    + repeat constructor; vm_compute; discriminate.
    + exists w'. split; [exact E|]. split; [|split].
      * rewrite Hdouble. vm_compute. reflexivity.
      * apply Hframe. discriminate.
      * apply Hfile. reflexivity.
  - apply (proj2 (save_tsp_doubles_in_place "1q_6s.tsp" "six-state" 0%nat
                    (World (fun _ => [[inject_Z (2 ^ 1023)]])
                           (fun _ => None)))).
    apply Exists_cons_hd, Exists_cons_hd. vm_compute. intros H. now apply H.
Defined.

(** C9, as stated, does not hold: an entry whose double is not an
    integer neither makes [save_tsp] fail nor is rounded to the nearest
    integer.  For the one-entry matrix [[0.375]] the call returns and the
    integer written for 0.75 is 0, which is not nearest to 0.75. *)
Lemma save_tsp_truncates_silently :
  ~ (forall (filename comment : string) (a : ref) (w : world),
       (exists i j, forall z : Z, ~ entry (heap w a) i j * 2 == inject_Z z) ->
       exists e, Serializer.save_tsp filename a comment w = Raise e) /\
  (exists w',
     Serializer.save_tsp "x.tsp" 0%nat "six-state"
       (World (fun _ => [[0.375]]) (fun _ => None)) = Ok w' /\
     disk w' "x.tsp"%string = Some (tsp_text "x.tsp" "six-state" [[0%Z]]) /\
     ~ nearest (0.375 * 2) 0).
Proof.
  pose (w := World (fun _ => [[0.375]]) (fun _ => None)).
  split.
  - intros H. destruct (H "x.tsp"%string "six-state"%string 0%nat w) as [e He].
    + exists 0%nat, 0%nat. intros z.
      change (entry (heap w 0%nat) 0 0) with 0.375.
      unfold Qeq, inject_Z. simpl. lia.
    + discriminate He.
  - eexists. split; [reflexivity|]. split; [vm_compute; reflexivity|].
    vm_compute. intros H. apply H. reflexivity.
Qed.

(** C9, amended: when every doubled entry lies within the [float64]
    range, [save_tsp] returns and writes, for each matrix entry, twice
    the original cost with its fractional part dropped (rounded toward
    zero, not to the nearest integer); when the doubled cost is an
    integer, as for every exact half of an integer, that integer is
    written unchanged; a doubled cost that is not an integer is
    truncated without any failure.  (The text of the file is stated for
    a file name without an extension of a compressed format.)  In the
    only other case, some doubled entry beyond the [float64] range, the
    call raises [OverflowError]. *)
Theorem save_tsp_writes_truncated_doubles
        (filename comment : string) (a : ref) (w : world) :
  (doubles_fit (heap w a) ->
   exists w' ints,
     Serializer.save_tsp filename a comment w = Ok w' /\
     (uncompressed filename ->
      disk w' filename = Some (tsp_text filename comment ints)) /\
     map (@length Z) ints = map (@length Q) (heap w a) /\
     forall i j, (i < length (heap w a))%nat ->
                 (j < length (nth i (heap w a) []))%nat ->
       truncation (entry (heap w a) i j * 2) (nth j (nth i ints []) 0%Z) /\
       forall k : Z, entry (heap w a) i j * 2 == inject_Z k ->
                     nth j (nth i ints []) 0%Z = k) /\
  (double_overflows (heap w a) ->
   Serializer.save_tsp filename a comment w = Raise OverflowError) /\
  (doubles_fit (heap w a) \/ double_overflows (heap w a)).
Proof.
  split; [|split; [apply save_tsp_overflow | apply fit_or_overflow]].
  intros Hfit.
  exists (write_file filename
            (tsp_text filename comment
               (Serializer.printed (Serializer.imul (heap w a) 2)))
            (store a (Serializer.imul (heap w a) 2) w)),
         (Serializer.printed (Serializer.imul (heap w a) 2)).
  split; [now apply save_tsp_returns|].
  split; [intros _; simpl; now rewrite String.eqb_refl|].
  split; [now rewrite printed_shape, imul_shape|].
  intros i j Hi Hj.
  assert (Hi' : (i < length (Serializer.imul (heap w a) 2))%nat)
    by (unfold Serializer.imul; now rewrite length_map).
  assert (Hj' : (j < length (nth i (Serializer.imul (heap w a) 2) []))%nat).
  { unfold Serializer.imul. rewrite (nth_map_in _ _ [] []) by exact Hi.
    now rewrite length_map. }
  rewrite (printed_nth _ Hi' Hj'), (entry_imul_in_range _ _ Hi Hj).
  split; [apply int_of_float_truncation | apply int_of_float_exact].
Qed.

Lemma save_tsp_writes_truncated_doubles_witness :
  (exists w' ints,
     Serializer.save_tsp "1q_6s.tsp" 0%nat "six-state"
       (World (fun _ => [[0; 67.5]; [67.5; 0]]) (fun _ => None)) = Ok w' /\
     disk w' "1q_6s.tsp"%string
     = Some (tsp_text "1q_6s.tsp" "six-state" ints) /\
     nth 1 (nth 0 ints []) 0%Z = 135%Z) /\
  Serializer.save_tsp "1q_6s.tsp" 0%nat "six-state"
    (World (fun _ => [[0; inject_Z (2 ^ 1023)]]) (fun _ => None))
  = Raise OverflowError.
Proof.
  split.
  - destruct (proj1 (save_tsp_writes_truncated_doubles
                       "1q_6s.tsp" "six-state" 0%nat
                       (World (fun _ => [[0; 67.5]; [67.5; 0]])
                              (fun _ => None))))
      as [w' [ints [E [Hd [_ H]]]]].
    + repeat constructor; vm_compute; discriminate.
    + exists w', ints. split; [exact E|]. split; [exact (Hd eq_refl)|].
      apply (H 0%nat 1%nat); [simpl; lia | simpl; lia |].
      vm_compute. reflexivity.
  - apply (proj1 (proj2 (save_tsp_writes_truncated_doubles
                    "1q_6s.tsp" "six-state" 0%nat
                    (World (fun _ => [[0; inject_Z (2 ^ 1023)]])
                           (fun _ => None))))).
    apply Exists_cons_hd, Exists_cons_tl, Exists_cons_hd.
    vm_compute. intros H. now apply H.
Defined.

(* ================================================================== *)
(** ** Tour parser *)

Section DeserializerProperties.

Import Deserializer.

Lemma readlines_first_line (header body : string) :
  single_line header ->
  readlines (header ++ nl ++ body) = (header ++ nl)%string :: readlines body.
Proof.
  induction header as [|c h IH]; intros Hh.
  - reflexivity.
  - destruct Hh as [Hc Hh]. simpl.
    rewrite (proj2 (Ascii.eqb_neq c "010") Hc).
    change (h ++ String "010" body)%string with (h ++ nl ++ body)%string.
    now rewrite (IH Hh).
Qed.

Lemma pieces_skip_header (header body : string) :
  single_line header ->
  pieces (header ++ nl ++ body) =
  split " " (join " " (map (rstrip space_or_newline) (readlines body))).
Proof.
  intros Hh. unfold pieces. now rewrite readlines_first_line.
Qed.

Lemma int_Raise (s : string) (e : exn) : int s = Raise e -> e = ValueError.
Proof.
  unfold int. destruct (match rstrip isspace (lstrip isspace s) with
                        | EmptyString => _ | String _ _ => _ end);
    congruence.
Qed.

Lemma mapM_Forall2 (A B : Type) (f : A -> result B) (l : list A) (ys : list B) :
  Forall2 (fun x y => f x = Ok y) l ys -> mapM f l = Ok ys.
Proof.
  induction 1 as [|x y l ys Hxy _ IH]; simpl; [reflexivity|].
  now rewrite Hxy, IH.
Qed.

Lemma mapM_Raise_In (A B : Type) (f : A -> result B) (E : exn) (l : list A)
      (x : A) (e : exn) :
  (forall y e', f y = Raise e' -> e' = E) ->
  In x l -> f x = Raise e -> mapM f l = Raise E.
Proof.
  intros Hclass Hx Hfx. destruct (mapM f l) as [ys|e'] eqn:Em.
  - destruct (mapM_Ok_In _ _ _ Em Hx) as [y Hy]. congruence.
  - f_equal. revert Em. apply mapM_Raise_class. intros y e'' _. apply Hclass.
Qed.

End DeserializerProperties.

(** C8, as stated, does not hold: [get_projs] never compares the number
    of indices with the dimension on the first line.  A file declaring
    6 and listing the three indices 0 1 2 parses to [0, 1, 2]. *)
Lemma get_projs_ignores_declared_dimension :
  ~ (forall (filename : string) (w : world) (content : string)
            (d : Z) (path : list Z),
       disk w filename = Some content ->
       declared_dimension content = Ok d ->
       Deserializer.get_projs filename w = Ok path ->
       len path = d).
Proof.
  intros H.
  pose (content := ("6" ++ nl ++ "0 1 2" ++ nl)%string).
  pose (w := World (fun _ => []) (fun _ => Some content)).
  specialize (H "1q_6s.sol"%string w content 6%Z [0; 1; 2]%Z
                eq_refl eq_refl eq_refl).
  discriminate H.
Qed.

(* ================================================================== *)
(** ** Cycle evaluator: tours as cycles *)

Section Cycles.

Import Evaluator.

Lemma fold_left_Qplus_acc (l : list Q) (a : Q) :
  fold_left Qplus l a == a + sum l.
Proof.
  unfold sum. revert a. induction l as [|x r IH]; intros a; simpl.
  - ring.
  - rewrite (IH (a + x)), (IH (0 + x)). ring.
Qed.

Lemma sum_cons (a : Q) (l : list Q) : sum (a :: l) == a + sum l.
Proof.
  unfold sum at 1. simpl. rewrite fold_left_Qplus_acc. ring.
Qed.

(** The weights of a list of edges are found or not, and add up to the
    same number, in whatever order the edges come. *)
Lemma weights_perm_Ok (M : matrix) (es es' : list (Z * Z)) (ws : list Q) :
  Permutation es es' -> mapM (weight M) es = Ok ws ->
  exists ws', mapM (weight M) es' = Ok ws' /\ sum ws == sum ws'.
Proof.
  intros HP. revert ws.
  induction HP as [|e l l' _ IH|e1 e2 l|l l' l'' _ IH1 _ IH2]; intros ws H.
  - exists ws. split; [exact H | reflexivity].
  - simpl in H. destruct (weight M e) as [y|] eqn:Ey; [|discriminate].
    destruct (mapM (weight M) l) as [zs|] eqn:El; [|discriminate].
    injection H as <-. destruct (IH zs eq_refl) as [zs' [El' Hs]].
    exists (y :: zs'). simpl. rewrite Ey, El'. simpl.
    split; [reflexivity|]. now rewrite !sum_cons, Hs.
  - simpl in H. destruct (weight M e2) as [y2|] eqn:E2; [|discriminate].
    destruct (weight M e1) as [y1|] eqn:E1; [|discriminate].
    destruct (mapM (weight M) l) as [zs|] eqn:El; [|discriminate].
    injection H as <-. exists (y1 :: y2 :: zs). simpl.
    rewrite E1, E2, El. simpl. split; [reflexivity|].
    rewrite !sum_cons. ring.
  - destruct (IH1 ws H) as [ws' [H' Hs]].
    destruct (IH2 ws' H') as [ws'' [H'' Hs']].
    exists ws''. split; [exact H''|]. now rewrite Hs.
Qed.

Lemma weights_perm (M : matrix) (es es' : list (Z * Z)) :
  Permutation es es' ->
  agree (ws <- mapM (weight M) es ;; Ok (sum ws))
        (ws <- mapM (weight M) es' ;; Ok (sum ws)).
Proof.
  intros HP.
  assert (Hclass : forall l e, mapM (weight M) l = Raise e -> e = IndexError).
  { intros l e. apply mapM_Raise_class. intros x e' _. apply weight_Raise. }
  destruct (mapM (weight M) es) as [ws|e] eqn:E.
  - destruct (weights_perm_Ok _ HP E) as [ws' [-> Hs]]. exact Hs.
  - destruct (mapM (weight M) es') as [ws'|e'] eqn:E'.
    + destruct (weights_perm_Ok _ (Permutation_sym HP) E') as [ws [E'' _]].
      congruence.
    + simpl. now rewrite (Hclass _ _ E), (Hclass _ _ E').
Qed.

Lemma pairs_positions (p : list Z) :
  map (fun n => (nth n p 0%Z, nth (S n) p 0%Z)) (seq 0 (length p - 1))
  = pairs p.
Proof.
  induction p as [|a [|b r] IH]; [reflexivity | reflexivity |].
  replace (length (a :: b :: r) - 1)%nat with (S (length (b :: r) - 1))
    by (simpl; lia).
  rewrite <- cons_seq, <- seq_shift, map_cons, map_map.
  cbn [pairs]. f_equal. exact IH.
Qed.

Lemma nth_last_position (p : list Z) :
  nth (length p - 1) p 0%Z = last p 0%Z.
Proof.
  induction p as [|a [|b r] IH]; [reflexivity | reflexivity |].
  replace (length (a :: b :: r) - 1)%nat with (S (length (b :: r) - 1))
    by (simpl; lia).
  exact IH.
Qed.

Lemma edge_list_pairs (p : list Z) :
  edge_list p = pairs p ++ [(last p 0%Z, hd 0%Z p)].
Proof.
  unfold edge_list. rewrite pairs_positions, nth_last_position.
  now destruct p.
Qed.

Lemma pairs_snoc (a : Z) (t : list Z) (x : Z) :
  pairs ((a :: t) ++ [x]) = pairs (a :: t) ++ [(last (a :: t) 0%Z, x)].
Proof.
  revert a. induction t as [|b r IH]; intros a; [reflexivity|].
  change (pairs ((a :: b :: r) ++ [x]))
    with ((a, b) :: pairs ((b :: r) ++ [x])).
  rewrite IH. reflexivity.
Qed.

(** Moving the first index of a tour to its end moves the first edge to
    the end of the edge list. *)
Lemma edge_list_rotate (x a : Z) (t : list Z) :
  exists e R, edge_list (x :: a :: t) = e :: R /\
              edge_list ((a :: t) ++ [x]) = R ++ [e].
Proof.
  exists (x, a), (pairs (a :: t) ++ [(last (a :: t) 0%Z, x)]).
  rewrite !edge_list_pairs. split.
  - reflexivity.
  - rewrite pairs_snoc, last_last. reflexivity.
Qed.

End Cycles.

(** With sums added exactly, moving the first index of a tour to its
    end changes nothing: [cycle_length] raises for both tours or returns
    the same length for both.  (Sums of rounded [float64] numbers can
    differ in the last place.) *)
Lemma exact_sum_rotation (M : matrix) (x : Z) (t : list Z) :
  agree (Evaluator.cycle_length M (x :: t))
        (Evaluator.cycle_length M (t ++ [x])).
Proof.
  destruct t as [|a t].
  - simpl app. destruct (Evaluator.cycle_length M [x]); simpl; reflexivity.
  - unfold Evaluator.cycle_length.
    rewrite !edges_of_nonempty by (destruct t; discriminate).
    destruct (edge_list_rotate x a t) as [e [R [-> ->]]].
    cbn [bind]. apply weights_perm. apply Permutation_cons_append.
Qed.

Section Reverse.

Import Evaluator.

Lemma sigma_ext (n : nat) (f g : nat -> Q) :
  (forall k, (k < n)%nat -> f k == g k) -> sigma n f == sigma n g.
Proof.
  induction n as [|n IH]; intros H; simpl; [reflexivity|].
  rewrite IH by (intros k Hk; apply H; lia). now rewrite (H n) by lia.
Qed.

Lemma sigma_shift (n : nat) (f : nat -> Q) :
  sigma (S n) f == f 0%nat + sigma n (fun k => f (S k)).
Proof.
  induction n as [|n IH]; [simpl; ring|].
  change (sigma (S (S n)) f) with (sigma (S n) f + f (S n)).
  rewrite IH. simpl. ring.
Qed.

Lemma sigma_rev (n : nat) (f : nat -> Q) :
  sigma n (fun k => f (n - 1 - k)%nat) == sigma n f.
Proof.
  revert f. induction n as [|n IH]; intros f; [reflexivity|].
  rewrite (sigma_shift n f). cbn [sigma].
  replace (S n - 1 - n)%nat with 0%nat by lia.
  rewrite <- (IH (fun k => f (S k))).
  rewrite (@sigma_ext n (fun k => f (S n - 1 - k)%nat)
                      (fun k => f (S (n - 1 - k)))).
  - ring.
  - intros k Hk. replace (S n - 1 - k)%nat with (S (n - 1 - k)) by lia.
    reflexivity.
Qed.

Lemma tour_sum_rev (N : nat) (M : matrix) (t : list Z) :
  symmetric N M -> t <> [] ->
  (forall i, In i t -> (0 <= i < Z.of_nat N)%Z) ->
  tour_sum M (rev t) == tour_sum M t.
Proof.
  intros Hsym Hne Hin.
  assert (Hlen : (0 < length t)%nat)
    by (destruct t; [congruence | simpl; lia]).
  assert (Hat : forall k, (k < length t)%nat ->
                          (Z.to_nat (nth k t 0%Z) < N)%nat).
  { intros k Hk. specialize (Hin _ (nth_In t 0%Z Hk)). lia. }
  unfold tour_sum. rewrite length_rev.
  set (L := length t) in *.
  set (g := fun j => entry M (Z.to_nat (nth j t 0%Z))
                             (Z.to_nat (nth (S j) t 0%Z))).
  assert (HS : sigma (L - 1)
                 (fun k => entry M (Z.to_nat (nth k (rev t) 0%Z))
                                   (Z.to_nat (nth (S k) (rev t) 0%Z)))
               == sigma (L - 1) g).
  { rewrite <- (sigma_rev (L - 1) g). apply sigma_ext. intros k Hk.
    rewrite !rev_nth by (fold L; lia). fold L. unfold g.
    replace (L - S (S k))%nat with (L - 1 - 1 - k)%nat by lia.
    replace (L - S k)%nat with (S (L - 1 - 1 - k)) by lia.
    apply Hsym; apply Hat; fold L; lia. }
  assert (HC : entry M (Z.to_nat (nth (L - 1) (rev t) 0%Z))
                       (Z.to_nat (nth 0 (rev t) 0%Z))
               == entry M (Z.to_nat (nth (L - 1) t 0%Z))
                          (Z.to_nat (nth 0 t 0%Z))).
  { rewrite !rev_nth by (fold L; lia). fold L.
    replace (L - S (L - 1))%nat with 0%nat by lia.
    apply Hsym; apply Hat; fold L; lia. }
  now rewrite HS, HC.
Qed.

End Reverse.

(** With sums added exactly, the direction of travel does not matter on
    a symmetric cost matrix: for a non-empty tour of indices in [0, N),
    [cycle_length] returns the same length for the tour and for the tour
    reversed. *)
Lemma exact_sum_reversal (N : nat) (M : matrix) (t : list Z) :
  square N M -> symmetric N M -> t <> [] ->
  (forall i, In i t -> (0 <= i < Z.of_nat N)%Z) ->
  exists v v', Evaluator.cycle_length M t = Ok v /\
               Evaluator.cycle_length M (rev t) = Ok v' /\ v == v'.
Proof.
  intros Hsq Hsym Hne Hin.
  exists (tour_sum M t), (tour_sum M (rev t)).
  split; [exact (cycle_length_value Hsq Hne Hin)|]. split.
  - apply (cycle_length_value Hsq).
    + intros E. apply Hne. rewrite <- (rev_involutive t), E. reflexivity.
    + intros i Hi. apply Hin. now apply in_rev.
  - symmetry. exact (tour_sum_rev Hsym Hne Hin).
Qed.

(* ================================================================== *)
(** ** Evaluating the array that [save_tsp] was given *)

Section Scaling.

Import Evaluator Serializer.

Lemma getitem_map (A B : Type) (f : A -> B) (l : list A) (i : Z) :
  getitem (map f l) i = (x <- getitem l i ;; Ok (f x)).
Proof.
  unfold getitem, len. rewrite length_map.
  destruct (_ && _); [|reflexivity].
  rewrite nth_error_map. now destruct (nth_error l _).
Qed.

Lemma weight_imul (M : matrix) (k : Q) (e : Z * Z) :
  weight (imul M k) e = (q <- weight M e ;; Ok (q * k)).
Proof.
  unfold weight, imul. rewrite getitem_map.
  destruct (getitem M (fst e)) as [row|]; [|reflexivity].
  simpl. apply getitem_map.
Qed.

Lemma mapM_bind_map (A B C : Type) (f : A -> result B) (g : A -> result C)
      (h : B -> C) (l : list A) :
  (forall x, g x = (y <- f x ;; Ok (h y))) ->
  mapM g l = (ys <- mapM f l ;; Ok (map h ys)).
Proof.
  intros H. induction l as [|x r IH]; [reflexivity|].
  simpl. rewrite H, IH. destruct (f x); [|reflexivity].
  simpl. now destruct (mapM f r).
Qed.

Lemma sum_scale (k : Q) (ws : list Q) :
  sum (map (fun q => q * k) ws) == sum ws * k.
Proof.
  induction ws as [|x r IH]; [unfold sum; simpl; ring|].
  simpl map. rewrite !sum_cons, IH. ring.
Qed.

Lemma cycle_length_imul (M : matrix) (k : Q) (t : list Z) :
  scaled k (cycle_length M t) (cycle_length (imul M k) t).
Proof.
  unfold cycle_length. destruct (edges_of t) as [edges|e]; [|reflexivity].
  cbn [bind].
  rewrite (mapM_bind_map (weight M) (weight (imul M k)) (fun q => q * k))
    by (intros x; apply weight_imul).
  destruct (mapM (weight M) edges) as [ws|e]; [|reflexivity].
  simpl. apply sum_scale.
Qed.

End Scaling.

(* ================================================================== *)
(** ** Cost matrix: a metric on the settings *)

Section Metric.

Import CostMatrix.

Lemma Qabs_le_zero (x : Q) : Qabs x <= 0 -> x == 0.
Proof.
  intros H. apply Qabs_Qle_condition in H. destruct H as [H1 H2].
  apply Qle_antisym; [exact H2|]. now rewrite <- (Qopp_opp 0).
Qed.

Lemma Qabs_diff_triangle (x y z : Q) :
  Qabs (x - z) <= Qabs (x - y) + Qabs (y - z).
Proof.
  assert (E : x - z == (x - y) + (y - z)) by ring.
  rewrite E. apply Qabs_triangle.
Qed.

End Metric.

(** With sums added exactly, the costs [adj_mat] computes are
    distances.  For settings of one arity [C >= 1] every entry is
    non-negative and the triangle inequality holds:
    [cost[i][j] <= cost[i][k] + cost[k][j]]. *)
Lemma exact_triangle_inequality (C : nat) (settings : matrix) :
  (1 <= C)%nat -> arity C settings ->
  exists M, CostMatrix.adj_mat settings = Ok M /\
    (forall i j, (i < length settings)%nat -> (j < length settings)%nat ->
       0 <= entry M i j) /\
    (forall i j k, (i < length settings)%nat -> (j < length settings)%nat ->
       (k < length settings)%nat ->
       entry M i j <= entry M i k + entry M k j).
Proof.
  intros HC Har.
  destruct (adj_mat_entries HC Har) as [M [EM [_ Hmax]]].
  exists M. split; [exact EM|]. split.
  - intros i j Hi Hj. destruct (Hmax i j Hi Hj) as [[c [_ Ec]] _].
    rewrite Ec. apply Qabs_nonneg.
  - intros i j k Hi Hj Hk.
    destruct (Hmax i j Hi Hj) as [[c [Hc Ec]] _].
    destruct (Hmax i k Hi Hk) as [_ Hik].
    destruct (Hmax k j Hk Hj) as [_ Hkj].
    rewrite Ec.
    eapply Qle_trans;
      [apply (Qabs_diff_triangle _ (nth c (nth k settings []) 0))|].
    apply Qplus_le_compat; [exact (Hik c Hc) | exact (Hkj c Hc)].
Qed.

(** X5: a cost is zero exactly between settings with equal components.
    For settings of one arity [C >= 1], [cost[i][j] == 0] if and only if
    settings [i] and [j] agree in every component. *)
Theorem adj_mat_zero_iff_equal (C : nat) (settings : matrix) :
  (1 <= C)%nat -> arity C settings ->
  exists M, CostMatrix.adj_mat settings = Ok M /\
    forall i j, (i < length settings)%nat -> (j < length settings)%nat ->
      (entry M i j == 0 <->
       forall c, (c < C)%nat ->
         nth c (nth i settings []) 0 == nth c (nth j settings []) 0).
Proof.
  intros HC Har.
  destruct (adj_mat_entries HC Har) as [M [EM [_ Hmax]]].
  exists M. split; [exact EM|]. intros i j Hi Hj.
  destruct (Hmax i j Hi Hj) as [[c0 [Hc0 Ec0]] Hle]. split.
  - intros Hz c Hc. specialize (Hle c Hc). rewrite Hz in Hle.
    apply Qabs_le_zero in Hle. lra.
  - intros Heq. rewrite Ec0, (Heq c0 Hc0).
    unfold Qminus. rewrite Qplus_opp_r. reflexivity.
Qed.

Lemma adj_mat_zero_iff_equal_witness :
  exists M, CostMatrix.adj_mat [[0; 45]; [22.5; 0]; [0; 45]] = Ok M /\
            entry M 0 2 == 0.
Proof.
  destruct (@adj_mat_zero_iff_equal 2 [[0; 45]; [22.5; 0]; [0; 45]])
    as [M [EM H]].
  - lia.
  - repeat constructor.
  - exists M. split; [exact EM|].
    apply (H 0%nat 2%nat); [simpl; lia | simpl; lia |].
    intros [|[|c]] Hc; [reflexivity | reflexivity | lia].
Defined.

(** X6: settings without components have no cost.  For a non-empty
    sequence of settings of arity 0 the maximum over the components does
    not exist and [adj_mat] raises [ValueError]. *)
Theorem adj_mat_no_components (settings : matrix) :
  settings <> [] -> arity 0 settings ->
  CostMatrix.adj_mat settings = Raise ValueError.
Proof.
  intros Hne Har. rewrite adj_mat_unfold.
  destruct settings as [|s r]; [congruence|].
  inversion Har as [|? ? Hs _]; subst.
  destruct s; [reflexivity | discriminate Hs].
Qed.

Lemma adj_mat_no_components_witness :
  CostMatrix.adj_mat [[]; []] = Raise ValueError.
Proof.
  apply adj_mat_no_components; [discriminate | repeat constructor].
Defined.

(* ================================================================== *)
(** ** Configuration space: small cases and distinct settings *)

Section SpaceExtras.

Import Builder CostMatrix.

(** Two indices below [b^n] with the same [n] digits are equal. *)
Lemma digits_differ (b n i j : nat) :
  (i < b ^ n)%nat -> (j < b ^ n)%nat -> i <> j ->
  exists k, (k < n)%nat /\ digit b n i k <> digit b n j k.
Proof.
  revert i j. induction n as [|n IH]; intros i j Hi Hj Hne.
  - simpl in Hi, Hj. lia.
  - assert (Hb : b <> 0%nat) by (intros ->; simpl in Hi; lia).
    destruct (Nat.eq_dec (i mod b) (j mod b)) as [Hmod|Hmod].
    + destruct (IH (i / b) (j / b))%nat as [k [Hk Hd]].
      * apply Nat.Div0.div_lt_upper_bound. simpl in Hi. lia.
      * apply Nat.Div0.div_lt_upper_bound. simpl in Hj. lia.
      * intros Hdiv. apply Hne.
        rewrite (Nat.div_mod_eq i b), (Nat.div_mod_eq j b). congruence.
      * exists k. split; [lia|]. now rewrite !digit_step by exact Hk.
    + exists n. split; [lia|]. now rewrite !digit_last.
Qed.

(** Component [r] of the [k]-th block of a selected setting. *)
Lemma selected_component (base : matrix) (c n idx k r : nat) :
  base <> [] -> arity c base -> (k < n)%nat -> (r < c)%nat ->
  nth (c * k + r) (selected base n idx) 0
  = nth r (nth (digit (length base) n idx k) base []) 0.
Proof.
  intros Hne Har Hk Hr. unfold selected. rewrite <- flat_map_concat_map.
  assert (Hb : length base <> 0%nat)
    by (destruct base; [congruence | discriminate]).
  assert (Hc : c <> 0%nat) by lia.
  rewrite (@nth_flat_map_blocks _ _ _ c _ _ 0 0%nat).
  - replace (c * k + r)%nat with (r + k * c)%nat by lia.
    rewrite Nat.Div0.mod_add, Nat.div_add by exact Hc.
    rewrite Nat.mod_small, Nat.div_small by exact Hr.
    now rewrite seq_nth by lia.
  - intros x. unfold arity in Har. rewrite Forall_forall in Har.
    apply Har. apply nth_In. unfold digit. now apply Nat.mod_upper_bound.
  - rewrite length_seq. nia.
Qed.

(** Two different projections of the base table are at least 22.5 apart
    in one of their two angles. *)
Lemma base_rows_apart (d1 d2 : nat) :
  (d1 < 6)%nat -> (d2 < 6)%nat -> d1 <> d2 ->
  exists r, (r < 2)%nat /\
    22.5 <= Qabs (nth r (nth d1 ANGLES_6s []) 0
                  - nth r (nth d2 ANGLES_6s []) 0).
Proof.
  intros H1 H2 Hne.
  destruct d1 as [|[|[|[|[|[|d1]]]]]]; try lia;
    destruct d2 as [|[|[|[|[|[|d2]]]]]]; try lia; try congruence;
    first [ exists 0%nat; split; [lia | vm_compute; discriminate]
          | exists 1%nat; split; [lia | vm_compute; discriminate] ].
Qed.

(** The cost matrix of the [n]-qubit space: square, with entries that
    are whole multiples of 22.5 up to 90, and at least 22.5 off the
    diagonal. *)
Lemma pipeline_matrix (n : nat) :
  (1 <= n)%nat ->
  exists angles M,
    nqubit_angles ANGLES_6s (Z.of_nat n) = Ok angles /\
    adj_mat angles = Ok M /\
    square (6 ^ n) M /\
    forall i j, (i < 6 ^ n)%nat -> (j < 6 ^ n)%nat ->
      steps_of_22_5 0 4 (entry M i j) /\
      (i <> j -> 22.5 <= entry M i j) /\
      (i = j -> entry M i j == 0) /\
      entry M i j == entry M j i.
Proof.
  intros Hn.
  set (angles := map (@concat Q) (product_rec ANGLES_6s n)).
  assert (Hbase : arity 2 ANGLES_6s) by (repeat constructor).
  assert (Hlen : length angles = (6 ^ n)%nat)
    by (unfold angles; now rewrite length_map, product_rec_length).
  assert (Har : forall s, In s angles -> length s = (2 * n)%nat)
    by (intros s Hs; exact (@power_row_length 2 n _ s Hbase Hs)).
  assert (Hrow : forall idx, (idx < 6 ^ n)%nat ->
                             nth idx angles [] = selected ANGLES_6s n idx).
  { intros idx Hidx. unfold angles.
    rewrite (nth_map_in _ _ [] []) by (now rewrite product_rec_length).
    unfold selected. f_equal. now apply product_rec_nth. }
  destruct (@adj_mat_entries (2 * n) angles) as [M [EM [Hsq Hmax]]];
    [lia | now apply Forall_forall |].
  exists angles, M. rewrite Hlen in *.
  split.
  { apply (@nqubit_angles_power 2);
      [exact Hn | discriminate | exact Hbase]. }
  split; [exact EM|]. split; [exact Hsq|].
  intros i j Hi Hj.
  assert (Hin : forall r, (r < 6 ^ n)%nat -> In (nth r angles []) angles)
    by (intros r Hr; apply nth_In; now rewrite Hlen).
  destruct (Hmax i j Hi Hj) as [[k [Hk Ek]] Hle]. split; [|split; [|split]].
  - apply (steps_of_22_5_Qeq (Qeq_sym _ _ Ek)).
    apply steps_abs_diff.
    + apply (@power_components n (nth i angles [])); [now apply Hin|].
      apply nth_In. now rewrite (Har _ (Hin i Hi)).
    + apply (@power_components n (nth j angles [])); [now apply Hin|].
      apply nth_In. now rewrite (Har _ (Hin j Hj)).
  - intros Hne.
    destruct (@digits_differ 6 n i j Hi Hj Hne) as [q [Hq Hd]].
    destruct (@base_rows_apart (digit 6 n i q) (digit 6 n j q))
      as [r [Hr Hfar]];
      [apply Nat.mod_upper_bound; lia | apply Nat.mod_upper_bound; lia
       | exact Hd |].
    eapply Qle_trans; [exact Hfar|].
    specialize (Hle (2 * q + r)%nat ltac:(lia)).
    rewrite (Hrow i Hi), (Hrow j Hj) in Hle.
    rewrite !(@selected_component ANGLES_6s 2 n _ q r) in Hle;
      [exact Hle | discriminate | exact Hbase | exact Hq | exact Hr
       | discriminate | exact Hbase | exact Hq | exact Hr].
  - intros <-. rewrite Ek. unfold Qminus. rewrite Qplus_opp_r. reflexivity.
  - refine (is_max_of_unique _ (Hmax i j Hi Hj) (Hmax j i Hj Hi)).
    intros c _. rewrite Qabs_Qminus. reflexivity.
Qed.

End SpaceExtras.

(** X7: one qubit is the base table.  For a non-empty table whose rows
    have one length, [nqubit_angles] with the count 1 returns the table
    unchanged. *)
Theorem nqubit_angles_one (c : nat) (base : matrix) :
  base <> [] -> arity c base ->
  Builder.nqubit_angles base 1 = Ok base.
Proof.
  intros Hne Har.
  change 1%Z with (Z.of_nat 1).
  rewrite (@nqubit_angles_power c 1 base (le_n 1) Hne Har).
  assert (E : map (@concat Q) (Builder.product_rec base 1) = base).
  { cbn [Builder.product_rec flat_map]. rewrite app_nil_r, map_map.
    rewrite <- (map_id base) at 2. apply map_ext. intros y.
    simpl. apply app_nil_r. }
  now rewrite E.
Qed.

Lemma nqubit_angles_one_witness :
  Builder.nqubit_angles Builder.ANGLES_6s 1 = Ok Builder.ANGLES_6s.
Proof.
  apply (@nqubit_angles_one 2); [discriminate | repeat constructor].
Defined.

(** X9: the settings of the [n]-qubit space are pairwise different.  For
    every [n >= 1] the cost between two different indices of
    [adj_mat (nqubit_angles ANGLES_6s n)] is at least 22.5; only the
    diagonal is zero. *)
Theorem pipeline_costs_off_diagonal (n : nat) :
  (1 <= n)%nat ->
  exists angles M,
    Builder.nqubit_angles Builder.ANGLES_6s (Z.of_nat n) = Ok angles /\
    CostMatrix.adj_mat angles = Ok M /\
    forall i j, (i < 6 ^ n)%nat -> (j < 6 ^ n)%nat ->
      (i <> j -> 22.5 <= entry M i j) /\ (entry M i j == 0 <-> i = j).
Proof.
  intros Hn. destruct (pipeline_matrix Hn) as [angles [M [EA [EM [_ H]]]]].
  exists angles, M. split; [exact EA|]. split; [exact EM|].
  intros i j Hi Hj. destruct (H i j Hi Hj) as [_ [Hfar [Hdiag _]]].
  split; [exact Hfar|]. split; [|exact Hdiag].
  intros Hz. destruct (Nat.eq_dec i j) as [E|Hne]; [exact E|].
  specialize (Hfar Hne). rewrite Hz in Hfar.
  exfalso. revert Hfar. vm_compute. intros Hc. now apply Hc.
Qed.

Lemma pipeline_costs_off_diagonal_witness :
  exists angles M,
    Builder.nqubit_angles Builder.ANGLES_6s 2 = Ok angles /\
    CostMatrix.adj_mat angles = Ok M /\
    22.5 <= entry M 0 7.
Proof.
  destruct (@pipeline_costs_off_diagonal 2) as [angles [M [EA [EM H]]]];
    [lia|].
  exists angles, M. split; [exact EA|]. split; [exact EM|].
  apply (H 0%nat 7%nat); simpl; lia.
Defined.

(* ================================================================== *)
(** ** Tour parser: lines and pieces *)

Section Lines.

Import Deserializer.

Open Scope string_scope.

Lemma str_app_assoc (a b c : string) : (a ++ b) ++ c = a ++ (b ++ c).
Proof. induction a as [|x a IH]; simpl; [reflexivity | now rewrite IH]. Qed.

Lemma str_app_nil_r (a : string) : a ++ EmptyString = a.
Proof. induction a as [|x a IH]; simpl; [reflexivity | now rewrite IH]. Qed.

Lemma split_nonempty (sep : ascii) (s : string) : split sep s <> [].
Proof.
  destruct s as [|c r]; simpl; [discriminate|].
  destruct (Ascii.eqb c sep); [discriminate|].
  destruct (split sep r); discriminate.
Qed.

(** Cutting at the separator distributes over a separator. *)
Lemma split_app_sep (sep : ascii) (a b : string) :
  split sep (a ++ String sep b) = (split sep a ++ split sep b)%list.
Proof.
  induction a as [|c a IH]; simpl.
  - now rewrite Ascii.eqb_refl.
  - destruct (Ascii.eqb c sep); [now rewrite IH|].
    rewrite IH. destruct (split sep a) as [|p ps] eqn:E; [|reflexivity].
    now destruct (split_nonempty _ _ E).
Qed.

(** The pieces of joined lines are the pieces of the lines, in order. *)
Lemma split_join (l : string) (ls : list string) :
  split " " (join " " (l :: ls)) = flat_map (split " ") (l :: ls).
Proof.
  revert l. induction ls as [|l' ls IH]; intros l.
  - simpl. now rewrite app_nil_r.
  - change (join " " (l :: l' :: ls))
      with (l ++ String " " (join " " (l' :: ls))).
    rewrite split_app_sep, IH. reflexivity.
Qed.

Lemma split_plain (s : string) : plain s -> split " " s = [s].
Proof.
  induction s as [|c r IH]; [reflexivity|]. intros [Hc Hr]. simpl.
  unfold space_or_newline in Hc. apply orb_false_elim in Hc as [Hc _].
  rewrite Hc, (IH Hr). reflexivity.
Qed.

Lemma rstrip_plain (s : string) : plain s -> rstrip space_or_newline s = s.
Proof.
  induction s as [|c r IH]; [reflexivity|]. intros [Hc Hr]. simpl.
  rewrite (IH Hr), Hc. now destruct r.
Qed.

Lemma rstrip_app_fixed (p : ascii -> bool) (a b : string) :
  rstrip p b = b -> b <> EmptyString -> rstrip p (a ++ b) = a ++ b.
Proof.
  intros Hb Hne. induction a as [|c a IH]; [exact Hb|].
  simpl. rewrite IH. destruct (a ++ b) eqn:E; [|reflexivity].
  destruct a; simpl in E; [congruence | discriminate].
Qed.

Lemma rstrip_blank_tail (a : string) (k : nat) :
  rstrip space_or_newline (a ++ spaces k ++ nl)
  = rstrip space_or_newline a.
Proof.
  assert (Ht : rstrip space_or_newline (spaces k ++ nl) = EmptyString)
    by (induction k as [|k IH]; [reflexivity | simpl; now rewrite IH]).
  induction a as [|c a IH]; [exact Ht|].
  simpl. now rewrite IH.
Qed.

Lemma join_tokens_fixed (toks : list string) :
  toks <> [] -> Forall token toks ->
  rstrip space_or_newline (join " " toks) = join " " toks /\
  join " " toks <> EmptyString.
Proof.
  intros Hne Hall. induction Hall as [|t r [Ht Hp] _ IH]; [congruence|].
  destruct r as [|t' r'].
  - simpl. split; [now apply rstrip_plain | exact Ht].
  - destruct (IH ltac:(discriminate)) as [IH1 IH2].
    change (join " " (t :: t' :: r')) with (t ++ " " ++ join " " (t' :: r')).
    split.
    + rewrite <- str_app_assoc. now apply rstrip_app_fixed.
    + destruct t; [congruence | discriminate].
Qed.

Lemma plain_single_line (s : string) : plain s -> single_line s.
Proof.
  induction s as [|c r IH]; [trivial|]. intros [Hc Hr].
  split; [|now apply IH]. intros ->. discriminate Hc.
Qed.

Lemma single_line_app (a b : string) :
  single_line a -> single_line b -> single_line (a ++ b).
Proof.
  intros Ha Hb. induction a as [|c a IH]; [exact Hb|].
  destruct Ha as [Hc Ha]. split; [exact Hc | now apply IH].
Qed.

Lemma single_line_spaces (k : nat) : single_line (spaces k).
Proof. induction k; simpl; [trivial | split; [discriminate | assumption]]. Qed.

Lemma single_line_join (toks : list string) :
  Forall token toks -> single_line (join " " toks).
Proof.
  induction 1 as [|t r [_ Hp] _ IH]; [exact I|].
  destruct r as [|t' r']; [now apply plain_single_line|].
  change (join " " (t :: t' :: r')) with (t ++ " " ++ join " " (t' :: r')).
  apply single_line_app; [now apply plain_single_line|].
  split; [discriminate | exact IH].
Qed.

Lemma readlines_sol_body (lines : list (list string * nat)) :
  Forall (fun l => Forall token (fst l)) lines ->
  readlines (sol_body lines) = map sol_line lines.
Proof.
  induction 1 as [|[toks k] r Htoks _ IH]; [reflexivity|].
  simpl sol_body. unfold sol_line at 1. simpl fst. simpl snd.
  rewrite str_app_assoc, str_app_assoc, <- (str_app_assoc (join " " toks)).
  rewrite readlines_first_line
    by (apply single_line_app;
        [now apply single_line_join | apply single_line_spaces]).
  rewrite IH. simpl map. unfold sol_line at 2. simpl fst. simpl snd.
  now rewrite <- !str_app_assoc.
Qed.

Lemma join_app (sep : string) (l1 l2 : list string) :
  l1 <> [] -> l2 <> [] ->
  join sep (l1 ++ l2) = join sep l1 ++ sep ++ join sep l2.
Proof.
  intros H1 H2. induction l1 as [|x [|y r] IH]; [congruence | |].
  - destruct l2; [congruence | reflexivity].
  - change (join sep ((x :: y :: r) ++ l2))
      with (x ++ sep ++ join sep ((y :: r) ++ l2)).
    rewrite IH by discriminate.
    change (join sep (x :: y :: r)) with (x ++ sep ++ join sep (y :: r)).
    now rewrite !str_app_assoc.
Qed.

(** The pieces of a well-formed solution body are its tokens. *)
Lemma pieces_sol_body (header : string) (lines : list (list string * nat)) :
  single_line header -> lines <> [] ->
  Forall (fun l => fst l <> [] /\ Forall token (fst l)) lines ->
  pieces (header ++ nl ++ sol_body lines) = concat (map fst lines).
Proof.
  intros Hh Hne Hall.
  rewrite (@pieces_skip_header header _ Hh).
  rewrite readlines_sol_body
    by (apply (Forall_impl _ (fun l H => proj2 H) Hall)).
  rewrite map_map.
  assert (Hstrip : map (fun l => rstrip space_or_newline (sol_line l)) lines
                   = map (fun l => join " " (fst l)) lines).
  { apply map_ext_in. intros l Hl. rewrite Forall_forall in Hall.
    destruct (Hall l Hl) as [H1 H2]. unfold sol_line.
    rewrite rstrip_blank_tail. now apply join_tokens_fixed. }
  rewrite Hstrip. clear Hstrip.
  assert (Hsj : forall ls, ls <> [] ->
                  split " " (join " " ls) = flat_map (split " ") ls)
    by (intros [|x xs] H; [congruence | apply split_join]).
  rewrite Hsj by (destruct lines; [congruence | discriminate]).
  rewrite flat_map_concat_map, map_map. f_equal.
  apply map_ext_in. intros l Hl.
  rewrite Forall_forall in Hall. destruct (Hall l Hl) as [H1 H2].
  rewrite (Hsj _ H1). clear H1.
  induction H2 as [|t0 r0 [_ Hp] _ IH2]; [reflexivity|].
  simpl. rewrite (split_plain _ Hp). simpl. now rewrite IH2.
Qed.

Lemma readlines_single_line (s : string) :
  single_line s -> skipn 1 (readlines s) = [].
Proof.
  assert (H : forall t, single_line t ->
                        readlines t = match t with
                                      | EmptyString => []
                                      | _ => [t]
                                      end).
  { induction t as [|c r IH]; [reflexivity|]. intros [Hc Hr]. simpl.
    rewrite (proj2 (Ascii.eqb_neq c "010") Hc), (IH Hr). now destruct r. }
  intros Hs. rewrite (H s Hs). now destruct s.
Qed.

End Lines.

(** X10: line breaks in a solution file do not matter.  When the lines
    after the first hold tokens separated by single spaces, each line
    ending in any number of spaces and a newline, [get_projs] converts
    the tokens of all lines in order: the result is the same however the
    tokens are distributed over lines. *)
Theorem get_projs_line_breaks
        (filename : string) (w : world) (header : string)
        (lines : list (list string * nat)) :
  single_line header -> lines <> [] ->
  Forall (fun l => fst l <> [] /\ Forall token (fst l)) lines ->
  disk w filename = Some (header ++ nl ++ sol_body lines)%string ->
  Deserializer.get_projs filename w
  = mapM Deserializer.int (concat (map fst lines)).
Proof.
  intros Hh Hne Hall Hd. unfold Deserializer.get_projs. rewrite Hd.
  now rewrite (@pieces_sol_body header lines Hh Hne Hall).
Qed.

Lemma get_projs_line_breaks_witness :
  Deserializer.get_projs "1q_6s.sol"
    (World (fun _ => [])
       (fun _ => Some ("6" ++ nl
                       ++ sol_body [(["0"; "5"; "3"], 1%nat);
                                    (["4"], 0%nat);
                                    (["1"; "2"], 2%nat)])%string))
  = mapM Deserializer.int ["0"; "5"; "3"; "4"; "1"; "2"]%string.
Proof.
  apply (@get_projs_line_breaks "1q_6s.sol"
           (World (fun _ => [])
              (fun _ => Some ("6" ++ nl
                              ++ sol_body [(["0"; "5"; "3"], 1%nat);
                                           (["4"], 0%nat);
                                           (["1"; "2"], 2%nat)])%string))
           "6"
           [(["0"; "5"; "3"]%string, 1%nat); (["4"]%string, 0%nat);
            (["1"; "2"]%string, 2%nat)]).
  - split; [discriminate | exact I].
  - discriminate.
  - repeat constructor; simpl; discriminate.
  - reflexivity.
Defined.

(** X11: a solution file without tour lines is refused.  On a file that
    is empty or holds only its first line, with or without the newline,
    [get_projs] raises [ValueError] instead of returning an empty
    tour. *)
Theorem get_projs_header_only
        (filename : string) (w : world) (header : string) :
  single_line header ->
  disk w filename = Some header \/
  disk w filename = Some (header ++ nl)%string ->
  Deserializer.get_projs filename w = Raise ValueError.
Proof.
  intros Hh [Hd|Hd]; unfold Deserializer.get_projs, Deserializer.pieces;
    rewrite Hd.
  - now rewrite (@readlines_single_line header Hh).
  - rewrite <- (str_app_nil_r nl), readlines_first_line by exact Hh.
    reflexivity.
Qed.

Lemma get_projs_header_only_witness :
  Deserializer.get_projs "1q_6s.sol"
    (World (fun _ => []) (fun _ => Some ("6" ++ nl)%string))
  = Raise ValueError.
Proof.
  apply (@get_projs_header_only "1q_6s.sol"
           (World (fun _ => []) (fun _ => Some ("6" ++ nl)%string)) "6").
  - split; [discriminate | exact I].
  - right. reflexivity.
Defined.

(** X12: a blank line in the tour is refused.  If some line after the
    first holds nothing but spaces and its newline, [get_projs] raises
    [ValueError]. *)
Theorem get_projs_blank_line
        (filename : string) (w : world) (header body : string) :
  single_line header ->
  disk w filename = Some (header ++ nl ++ body)%string ->
  (exists line, In line (Deserializer.readlines body) /\
                Deserializer.rstrip Deserializer.space_or_newline line
                = EmptyString) ->
  Deserializer.get_projs filename w = Raise ValueError.
Proof.
  intros Hh Hd [line [Hline Hblank]].
  unfold Deserializer.get_projs. rewrite Hd.
  rewrite (@pieces_skip_header header body Hh).
  apply (@mapM_Raise_In _ _ Deserializer.int ValueError _ EmptyString
                        ValueError int_Raise); [|reflexivity].
  destruct (Deserializer.readlines body) as [|l ls] eqn:E; [destruct Hline|].
  cbn [map]. rewrite split_join. apply in_flat_map.
  exists EmptyString. split; [|now left].
  rewrite <- Hblank.
  change (In (Deserializer.rstrip Deserializer.space_or_newline line)
             (map (Deserializer.rstrip Deserializer.space_or_newline)
                  (l :: ls))).
  now apply in_map.
Qed.

Lemma get_projs_blank_line_witness :
  Deserializer.get_projs "1q_6s.sol"
    (World (fun _ => [])
       (fun _ => Some ("6" ++ nl ++ ("0 5 3" ++ nl ++ " " ++ nl
                                     ++ "4 1 2" ++ nl))%string))
  = Raise ValueError.
Proof.
  apply (@get_projs_blank_line "1q_6s.sol"
           (World (fun _ => [])
              (fun _ => Some ("6" ++ nl ++ ("0 5 3" ++ nl ++ " " ++ nl
                                            ++ "4 1 2" ++ nl))%string))
           "6" ("0 5 3" ++ nl ++ " " ++ nl ++ "4 1 2" ++ nl)%string).
  - split; [discriminate | exact I].
  - reflexivity.
  - exists (" " ++ nl)%string. split; [|reflexivity].
    right. left. reflexivity.
Defined.

(* ================================================================== *)
(** ** Tours of the configuration space *)

Section TourBounds.

Import Evaluator.

Lemma sigma_bounds (n : nat) (f : nat -> Q) (lo hi : Q) :
  (forall k, (k < n)%nat -> lo <= f k <= hi) ->
  inject_Z (Z.of_nat n) * lo <= sigma n f <= inject_Z (Z.of_nat n) * hi.
Proof.
  induction n as [|n IH]; intros H.
  - change (inject_Z (Z.of_nat 0)) with 0. simpl sigma. split; lra.
  - destruct IH as [IH1 IH2]; [intros k Hk; apply H; lia|].
    destruct (H n (Nat.lt_succ_diag_r n)) as [H1 H2].
    rewrite Nat2Z.inj_succ. unfold Z.succ. rewrite inject_Z_plus.
    change (inject_Z 1) with 1. simpl sigma. split; lra.
Qed.

(** On a matrix whose off-diagonal entries lie between [lo] and [hi],
    a tour without repetition of [L >= 2] indices has a length between
    [L * lo] and [L * hi]. *)
Lemma tour_sum_bounds (N : nat) (M : matrix) (t : list Z) (lo hi : Q) :
  (forall i j, (i < N)%nat -> (j < N)%nat -> i <> j ->
               lo <= entry M i j <= hi) ->
  NoDup t -> (2 <= length t)%nat ->
  (forall i, In i t -> (0 <= i < Z.of_nat N)%Z) ->
  inject_Z (Z.of_nat (length t)) * lo <= tour_sum M t
  <= inject_Z (Z.of_nat (length t)) * hi.
Proof.
  intros HM Hnd HL Hin.
  assert (Hat : forall k, (k < length t)%nat ->
                          (Z.to_nat (nth k t 0%Z) < N)%nat).
  { intros k Hk. specialize (Hin _ (nth_In t 0%Z Hk)). lia. }
  assert (Hne : forall k k', (k < length t)%nat -> (k' < length t)%nat ->
                  k <> k' ->
                  Z.to_nat (nth k t 0%Z) <> Z.to_nat (nth k' t 0%Z)).
  { intros k k' Hk Hk' Hkk E. apply Hkk.
    apply (proj1 (NoDup_nth t 0%Z) Hnd k k' Hk Hk').
    pose proof (Hin _ (nth_In t 0%Z Hk)).
    pose proof (Hin _ (nth_In t 0%Z Hk')). lia. }
  unfold tour_sum.
  destruct (@sigma_bounds (length t - 1)
              (fun k => entry M (Z.to_nat (nth k t 0%Z))
                                (Z.to_nat (nth (S k) t 0%Z))) lo hi)
    as [S1 S2].
  { intros k Hk. apply HM; [apply Hat; lia | apply Hat; lia |].
    apply Hne; lia. }
  destruct (HM (Z.to_nat (nth (length t - 1) t 0%Z))
               (Z.to_nat (nth 0 t 0%Z))) as [C1 C2];
    [apply Hat; lia | apply Hat; lia | apply Hne; lia |].
  replace (Z.of_nat (length t)) with (Z.of_nat (length t - 1) + 1)%Z by lia.
  rewrite inject_Z_plus. change (inject_Z 1) with 1. split; lra.
Qed.

End TourBounds.

(** X13: tours of the configuration space have a length bounded by their
    number of steps.  For every [n >= 1], on the matrix
    [adj_mat (nqubit_angles ANGLES_6s n)], a tour of [L >= 2] indices in
    range, none repeated, has a cycle length between [22.5 * L] and
    [90 * L]; in particular it is never zero. *)
Theorem pipeline_tour_length_bounds (n : nat) :
  (1 <= n)%nat ->
  exists angles M,
    Builder.nqubit_angles Builder.ANGLES_6s (Z.of_nat n) = Ok angles /\
    CostMatrix.adj_mat angles = Ok M /\
    forall t, NoDup t -> (2 <= length t)%nat ->
      (forall i, In i t -> (0 <= i < Z.of_nat (6 ^ n))%Z) ->
      exists v, Evaluator.cycle_length M t = Ok v /\
        inject_Z (Z.of_nat (length t)) * 22.5 <= v
        <= inject_Z (Z.of_nat (length t)) * 90.
Proof.
  intros Hn. destruct (pipeline_matrix Hn) as [angles [M [EA [EM [Hsq H]]]]].
  exists angles, M. split; [exact EA|]. split; [exact EM|].
  intros t Hnd HL Hin. exists (tour_sum M t). split.
  - apply (cycle_length_value Hsq); [|exact Hin].
    intros ->. simpl in HL. lia.
  - apply (@tour_sum_bounds (6 ^ n)); try assumption.
    intros i j Hi Hj Hne. destruct (H i j Hi Hj) as [Hst [Hfar _]].
    split; [now apply Hfar | now apply steps_bounds].
Qed.

Lemma pipeline_tour_length_bounds_witness :
  exists angles M,
    Builder.nqubit_angles Builder.ANGLES_6s 1 = Ok angles /\
    CostMatrix.adj_mat angles = Ok M /\
    exists v, Evaluator.cycle_length M [0; 5; 3; 4; 1; 2]%Z = Ok v /\
              inject_Z 6 * 22.5 <= v <= inject_Z 6 * 90.
Proof.
  destruct (@pipeline_tour_length_bounds 1) as [angles [M [EA [EM H]]]];
    [lia|].
  exists angles, M. split; [exact EA|]. split; [exact EM|].
  apply (H [0; 5; 3; 4; 1; 2]%Z).
  - repeat constructor; simpl; intuition discriminate.
  - simpl. lia.
  - intros i Hi. simpl in Hi. simpl. intuition lia.
Defined.

(* ================================================================== *)
(** ** The multi-qubit cells *)

Section Cells.

Import Notebook.

Lemma str_length_app (a b : string) :
  String.length (a ++ b) = (String.length a + String.length b)%nat.
Proof. induction a as [|c a IH]; simpl; [reflexivity | now rewrite IH]. Qed.

(** Equal strings with suffixes of one length have equal suffixes. *)
Lemma str_app_suffix (a b x y : string) :
  String.length x = String.length y ->
  (a ++ x)%string = (b ++ y)%string -> x = y.
Proof.
  intros Hlen. revert b. induction a as [|c a IH]; intros [|d b] E.
  - exact E.
  - simpl in E. apply (f_equal String.length) in E. simpl in E.
    rewrite str_length_app in E. lia.
  - simpl in E. apply (f_equal String.length) in E. simpl in E.
    rewrite str_length_app in E. lia.
  - simpl in E. injection E as _ E. exact (IH b E).
Qed.

Lemma sol_is_not_tsp (m n : Z) : sol_filename m <> tsp_filename n.
Proof.
  unfold sol_filename, tsp_filename. intros E.
  apply str_app_suffix in E; [discriminate E | reflexivity].
Qed.

(** The entries of the cost matrix of the [n]-qubit space, counted in
    steps of 22.5. *)
Lemma pipeline_matrix_steps (n : nat) :
  (1 <= n)%nat ->
  exists angles M,
    Builder.nqubit_angles Builder.ANGLES_6s (Z.of_nat n) = Ok angles /\
    CostMatrix.adj_mat angles = Ok M /\
    square (6 ^ n) M /\
    forall i j, (i < 6 ^ n)%nat -> (j < 6 ^ n)%nat ->
      exists z, (0 <= z <= 4)%Z /\ entry M i j == inject_Z z * 22.5 /\
                (z = 0%Z <-> i = j) /\ entry M i j == entry M j i.
Proof.
  intros Hn. destruct (pipeline_matrix Hn) as [angles [M [EA [EM [Hsq H]]]]].
  exists angles, M. split; [exact EA|]. split; [exact EM|].
  split; [exact Hsq|]. intros i j Hi Hj.
  destruct (H i j Hi Hj) as [[z [Hz Ez]] [Hfar [Hdiag Hsym]]].
  exists z. split; [exact Hz|]. split; [exact Ez|]. split; [|exact Hsym].
  split.
  - intros ->. destruct (Nat.eq_dec i j) as [E|Hne]; [exact E|].
    specialize (Hfar Hne). rewrite Ez in Hfar. exfalso.
    revert Hfar. vm_compute. intros Hc. now apply Hc.
  - intros Hij. specialize (Hdiag Hij). rewrite Ez in Hdiag.
    assert (Hq : inject_Z z == inject_Z 0)
      by (change (inject_Z 0) with 0; lra).
    exact (proj1 (inject_Z_injective z 0) Hq).
Qed.

(** The doubled costs of the [n]-qubit space, at most 180, lie within
    the [float64] range. *)
Lemma pipeline_doubles_fit (n : nat) (angles M : matrix) :
  (1 <= n)%nat ->
  Builder.nqubit_angles Builder.ANGLES_6s (Z.of_nat n) = Ok angles ->
  CostMatrix.adj_mat angles = Ok M ->
  doubles_fit M.
Proof.
  intros Hn EA EM.
  destruct (pipeline_matrix_steps Hn) as [angles' [M' [EA' [EM' [Hsq H]]]]].
  rewrite EA in EA'. injection EA' as <-.
  rewrite EM in EM'. injection EM' as <-.
  apply (doubles_fit_bounded Hsq). intros i j Hi Hj.
  destruct (H i j Hi Hj) as [z [Hz [Ez _]]]. rewrite Ez.
  assert (H0 : inject_Z 0 <= inject_Z z) by (rewrite <- Zle_Qle; lia).
  assert (H4 : inject_Z z <= inject_Z 4) by (rewrite <- Zle_Qle; lia).
  change (inject_Z 0) with 0 in H0. change (inject_Z 4) with 4 in H4.
  split; lra.
Qed.

(** What the body of the loop of cell 48 leaves: the array holds the
    doubled costs and the file holds them as integers. *)
Lemma generate_explicit (n : nat) (r : ref) (w : world) (angles M : matrix) :
  (1 <= n)%nat ->
  Builder.nqubit_angles Builder.ANGLES_6s (Z.of_nat n) = Ok angles ->
  CostMatrix.adj_mat angles = Ok M ->
  generate (Z.of_nat n) r w =
  Ok (write_file (tsp_filename (Z.of_nat n))
        (tsp_text (tsp_filename (Z.of_nat n)) (tsp_comment (Z.of_nat n))
           (Serializer.printed (Serializer.imul M 2)))
        (store r (Serializer.imul M 2) (store r M w))).
Proof.
  intros Hn EA EM. unfold generate. rewrite EA. cbn [bind].
  rewrite EM. cbn [bind]. rewrite save_tsp_returns.
  - cbn [heap store]. now rewrite Nat.eqb_refl.
  - cbn [heap store]. rewrite Nat.eqb_refl.
    exact (pipeline_doubles_fit Hn EA EM).
Qed.

Lemma generate_returns (n : nat) (r : ref) (w : world) :
  (1 <= n)%nat ->
  exists w' text,
    generate (Z.of_nat n) r w = Ok w' /\
    disk w' (tsp_filename (Z.of_nat n)) = Some text /\
    problem_file n text /\
    (forall f, f <> tsp_filename (Z.of_nat n) -> disk w' f = disk w f) /\
    (forall r', r' <> r -> heap w' r' = heap w r').
Proof.
  intros Hn.
  destruct (pipeline_matrix_steps Hn) as [angles [M [EA [EM [[HN Hrows] H]]]]].
  rewrite (generate_explicit r w Hn EA EM).
  eexists. eexists. split; [reflexivity|].
  split; [cbn [disk write_file]; now rewrite String.eqb_refl|].
  rewrite Forall_forall in Hrows.
  assert (Hlen : forall i, (i < 6 ^ n)%nat -> length (nth i M []) = (6 ^ n)%nat)
    by (intros i Hi; apply Hrows; apply nth_In; now rewrite HN).
  assert (Hint : forall i j, (i < 6 ^ n)%nat -> (j < 6 ^ n)%nat ->
            forall z, entry M i j == inject_Z z * 22.5 ->
              nth j (nth i (Serializer.printed (Serializer.imul M 2)) [])
                  0%Z = (45 * z)%Z).
  { intros i j Hi Hj z Ez.
    rewrite printed_nth.
    - rewrite entry_imul_in_range by (rewrite ?HN, ?Hlen; assumption).
      apply int_of_float_exact. rewrite inject_Z_mult, Ez.
      change (inject_Z 45) with 45. lra.
    - unfold Serializer.imul. now rewrite length_map, HN.
    - unfold Serializer.imul.
      rewrite (nth_map_in _ _ [] []) by (now rewrite HN).
      now rewrite length_map, Hlen. }
  split; [|split].
  - exists (Serializer.printed (Serializer.imul M 2)).
    split; [reflexivity|].
    split; [unfold Serializer.printed, Serializer.imul;
            now rewrite !length_map|].
    split.
    + intros i Hi. unfold Serializer.printed, Serializer.imul.
      rewrite (nth_map_in _ _ [] []) by (now rewrite length_map, HN).
      rewrite length_map, (nth_map_in _ _ [] []) by (now rewrite HN).
      now rewrite length_map, Hlen.
    + intros i j Hi Hj.
      destruct (H i j Hi Hj) as [z [Hz [Ez [Hdiag Hsym]]]].
      rewrite (Hint i j Hi Hj z Ez).
      split; [exists z; now split|]. split.
      * symmetry. apply (Hint j i Hj Hi). now rewrite <- Hsym.
      * rewrite <- Hdiag. lia.
  - intros f Hf. cbn [disk write_file store].
    now rewrite (proj2 (String.eqb_neq f _) Hf).
  - intros r' Hr'. cbn [heap write_file store].
    now rewrite (proj2 (Nat.eqb_neq r' r) Hr').
Qed.

End Cells.

(** X14: cell 48 hands the solver a well-formed problem.  For every
    qubit count [n >= 1] the body of the loop returns and leaves in
    [<n>q_6s.tsp] the header for that count followed by a [6^n] x [6^n]
    matrix of integers, each 0, 45, 90, 135 or 180 (twice a cost, without
    rounding), symmetric and zero exactly on the diagonal; no other file
    and no other array is touched. *)
Theorem generate_writes_problem_file (n : nat) (r : ref) (w : world) :
  (1 <= n)%nat ->
  exists w' text,
    Notebook.generate (Z.of_nat n) r w = Ok w' /\
    disk w' (Notebook.tsp_filename (Z.of_nat n)) = Some text /\
    problem_file n text /\
    (forall f, f <> Notebook.tsp_filename (Z.of_nat n) ->
               disk w' f = disk w f) /\
    (forall r', r' <> r -> heap w' r' = heap w r').
Proof. apply generate_returns. Qed.

Lemma generate_writes_problem_file_witness :
  exists w' text,
    Notebook.generate 2 0%nat (World (fun _ => []) (fun _ => None)) = Ok w' /\
    disk w' "2q_6s.tsp"%string = Some text /\ problem_file 2 text.
Proof.
  destruct (@generate_writes_problem_file 2 0%nat
              (World (fun _ => []) (fun _ => None)))
    as [w' [text [E [Hd [Hp _]]]]]; [lia|].
  exists w', text. split; [exact E|]. split; [exact Hd | exact Hp].
Defined.

Section Evaluation.

Import Notebook.

Lemma range_NoDup (k : Z) : NoDup (range k).
Proof.
  unfold range. apply Finite.Injective_map_NoDup; [|apply seq_NoDup].
  intros a b. apply Nat2Z.inj.
Qed.

Lemma range_valid (N : nat) (i : Z) :
  In i (range (Z.of_nat N)) -> (0 <= i < Z.of_nat N)%Z.
Proof.
  unfold range. rewrite Nat2Z.id. intros Hi.
  apply in_map_iff in Hi as [k [<- Hk]]. apply in_seq in Hk. lia.
Qed.

Lemma range_length (N : nat) : length (range (Z.of_nat N)) = N.
Proof. unfold range. now rewrite length_map, length_seq, Nat2Z.id. Qed.

Lemma six_pow_ge (n : nat) : (1 <= n)%nat -> (2 <= 6 ^ n)%nat.
Proof.
  intros Hn. destruct n as [|n]; [lia|].
  pose proof (Nat.pow_nonzero 6 n). simpl. lia.
Qed.

Lemma truediv_finite (a b : Q) :
  0 < b -> Evaluator.truediv a b = Evaluator.Finite (a / b).
Proof.
  intros Hb. unfold Evaluator.truediv.
  destruct (Qeq_bool b 0) eqn:E; [|reflexivity].
  apply Qeq_bool_eq in E. rewrite E in Hb. now apply Qlt_irrefl in Hb.
Qed.

End Evaluation.

(** X15: cell 54 on a valid solution.  For [n >= 1], when the solution
    file of that count parses to a tour of [L >= 2] indices in range,
    none repeated, the body of the loop returns; the optimal cycle lies
    between [22.5 * L] and [90 * L], the conventional cycle (the identity
    tour) between [22.5 * 6^n] and [90 * 6^n], the speedup is their
    finite quotient and the reduction their difference. *)
Theorem evaluate_valid_solution (n : nat) (w : world) (solution : list Z) :
  (1 <= n)%nat ->
  Deserializer.get_projs (Notebook.sol_filename (Z.of_nat n)) w
  = Ok solution ->
  NoDup solution -> (2 <= length solution)%nat ->
  (forall i, In i solution -> (0 <= i < Z.of_nat (6 ^ n))%Z) ->
  exists ev, Notebook.evaluate (Z.of_nat n) w = Ok ev /\
    inject_Z (Z.of_nat (length solution)) * 22.5
      <= Notebook.optimal_cycle ev
      <= inject_Z (Z.of_nat (length solution)) * 90 /\
    inject_Z (Z.of_nat (6 ^ n)) * 22.5
      <= Notebook.conv_cycle ev
      <= inject_Z (Z.of_nat (6 ^ n)) * 90 /\
    Notebook.speedup ev
    = Evaluator.Finite (Notebook.conv_cycle ev / Notebook.optimal_cycle ev) /\
    Notebook.reduction ev
    = Notebook.conv_cycle ev - Notebook.optimal_cycle ev.
Proof.
  intros Hn Hsol Hnd HL Hin.
  destruct (pipeline_matrix Hn) as [angles [M [EA [EM [Hsq H]]]]].
  assert (HM : forall i j, (i < 6 ^ n)%nat -> (j < 6 ^ n)%nat -> i <> j ->
                           22.5 <= entry M i j <= 90).
  { intros i j Hi Hj Hne. destruct (H i j Hi Hj) as [Hst [Hfar _]].
    split; [now apply Hfar | now apply steps_bounds]. }
  assert (Hlen : len M = Z.of_nat (6 ^ n))
    by (unfold len; now rewrite (proj1 Hsq)).
  assert (Hopt : Evaluator.cycle_length M solution
                 = Ok (tour_sum M solution)).
  { apply (cycle_length_value Hsq); [|exact Hin].
    intros ->. simpl in HL. lia. }
  assert (Hconv : Evaluator.cycle_length M (range (len M))
                  = Ok (tour_sum M (range (len M)))).
  { rewrite Hlen. apply (cycle_length_value Hsq).
    - intros E. apply (f_equal (@length Z)) in E.
      rewrite range_length in E. pose proof (six_pow_ge Hn). simpl in E. lia.
    - intros i. apply range_valid. }
  pose proof (@tour_sum_bounds (6 ^ n) M solution 22.5 90 HM Hnd HL Hin)
    as Bopt.
  assert (Bconv : inject_Z (Z.of_nat (6 ^ n)) * 22.5
                  <= tour_sum M (range (len M))
                  <= inject_Z (Z.of_nat (6 ^ n)) * 90).
  { rewrite Hlen. rewrite <- (range_length (6 ^ n)) at 1 4.
    apply (@tour_sum_bounds (6 ^ n) M _ 22.5 90 HM).
    - apply range_NoDup.
    - rewrite range_length. now apply six_pow_ge.
    - intros i. apply range_valid. }
  unfold Notebook.evaluate. rewrite EA. cbn [bind]. rewrite EM. cbn [bind].
  rewrite Hsol. cbn [bind]. rewrite Hopt. cbn [bind].
  rewrite Hconv. cbn [bind]. unfold Evaluator.speedup. cbn [bind].
  eexists. split; [reflexivity|]. cbn.
  split; [exact Bopt|]. split; [exact Bconv|].
  split; [|reflexivity]. f_equal. apply truediv_finite.
  destruct Bopt as [Bopt _].
  assert (Hpos : 2 <= inject_Z (Z.of_nat (length solution))).
  { change 2 with (inject_Z 2). rewrite <- Zle_Qle. lia. }
  eapply Qlt_le_trans; [|exact Bopt].
  apply Qlt_le_trans with (2 * 22.5); [reflexivity|].
  apply Qmult_le_compat_r; [exact Hpos | discriminate].
Qed.

Lemma evaluate_valid_solution_witness :
  exists ev,
    Notebook.evaluate 1
      (World (fun _ => [])
         (fun _ => Some ("6" ++ nl ++ "0 5 3 4 1 2 " ++ nl)%string)) = Ok ev /\
    Notebook.speedup ev
    = Evaluator.Finite (Notebook.conv_cycle ev / Notebook.optimal_cycle ev).
Proof.
  destruct (@evaluate_valid_solution 1
              (World (fun _ => [])
                 (fun _ => Some ("6" ++ nl ++ "0 5 3 4 1 2 " ++ nl)%string))
              [0; 5; 3; 4; 1; 2]%Z)
    as [ev [E [_ [_ [Hs _]]]]].
  - lia.
  - vm_compute. reflexivity.
  - repeat constructor; simpl; intuition discriminate.
  - simpl. lia.
  - intros i Hi. simpl in Hi. simpl. intuition lia.
  - exists ev. split; [exact E | exact Hs].
Defined.

(** X16: writing the problems never changes the evaluation.  Whatever
    cell 48's loop body did for one qubit count, the loop body of cell 54
    gives afterwards what it gave before, for every qubit count: it
    rebuilds its cost matrix and reads only the solution file, which
    [generate] does not write. *)
Theorem evaluate_after_generate (n m : Z) (r : ref) (w w' : world) :
  Notebook.generate n r w = Ok w' ->
  Notebook.evaluate m w' = Notebook.evaluate m w.
Proof.
  intros Hg. unfold Notebook.generate in Hg.
  destruct (Builder.nqubit_angles Builder.ANGLES_6s n) as [angles|];
    [|discriminate].
  cbn [bind] in Hg.
  destruct (CostMatrix.adj_mat angles) as [M|]; [|discriminate].
  cbn [bind] in Hg. apply save_tsp_Ok_inv in Hg as [text ->].
  unfold Notebook.evaluate, Deserializer.get_projs.
  cbn [disk write_file store].
  now rewrite (proj2 (String.eqb_neq _ _) (sol_is_not_tsp m n)).
Qed.

Lemma evaluate_after_generate_witness :
  exists w',
    Notebook.generate 1 0%nat
      (World (fun _ => [])
         (fun _ => Some ("6" ++ nl ++ "0 5 3 4 1 2 " ++ nl)%string)) = Ok w' /\
    Notebook.evaluate 1 w'
    = Notebook.evaluate 1
        (World (fun _ => [])
           (fun _ => Some ("6" ++ nl ++ "0 5 3 4 1 2 " ++ nl)%string)).
Proof.
  destruct (Notebook.generate 1 0%nat
              (World (fun _ => [])
                 (fun _ => Some ("6" ++ nl ++ "0 5 3 4 1 2 " ++ nl)%string)))
    as [w'|e] eqn:E; [|vm_compute in E; discriminate E].
  exists w'. split; [reflexivity|].
  exact (@evaluate_after_generate 1 1 0%nat _ w' E).
Defined.

Section Loop.

Import Notebook.

Lemma for_in_step (A : Type) (body : A -> world -> result world)
      (x : A) (l : list A) (w w1 : world) :
  body x w = Ok w1 -> for_in (x :: l) body w = for_in l body w1.
Proof. intros E. cbn [for_in]. now rewrite E. Qed.

Lemma cell_48_unfold (r : ref) (w : world) :
  cell_48 r w
  = for_in [Z.of_nat 1; Z.of_nat 2; Z.of_nat 3; Z.of_nat 4]
           (fun nqubits => generate nqubits r) w.
Proof. reflexivity. Qed.

End Loop.

(** X17: cell 48 leaves four problem files.  The loop over the qubit
    counts 1 to 4 returns, and afterwards each of [1q_6s.tsp] to
    [4q_6s.tsp] holds the problem of its own count (later iterations
    do not overwrite earlier files); no other file and no array other
    than the loop's own is touched. *)
Theorem cell_48_writes_four_files (r : ref) (w : world) :
  exists w', Notebook.cell_48 r w = Ok w' /\
    (forall n, (1 <= n <= 4)%nat ->
       exists text,
         disk w' (Notebook.tsp_filename (Z.of_nat n)) = Some text /\
         problem_file n text) /\
    (forall f, (forall n, (1 <= n <= 4)%nat ->
                          f <> Notebook.tsp_filename (Z.of_nat n)) ->
               disk w' f = disk w f) /\
    (forall r', r' <> r -> heap w' r' = heap w r').
Proof.
  destruct (@generate_returns 1 r w) as [w1 [t1 [E1 [D1 [P1 [F1 H1]]]]]];
    [lia|].
  destruct (@generate_returns 2 r w1) as [w2 [t2 [E2 [D2 [P2 [F2 H2]]]]]];
    [lia|].
  destruct (@generate_returns 3 r w2) as [w3 [t3 [E3 [D3 [P3 [F3 H3]]]]]];
    [lia|].
  destruct (@generate_returns 4 r w3) as [w4 [t4 [E4 [D4 [P4 [F4 H4]]]]]];
    [lia|].
  assert (Hnames : forall a b : nat, (1 <= a <= 4)%nat -> (1 <= b <= 4)%nat ->
            a <> b ->
            Notebook.tsp_filename (Z.of_nat a)
            <> Notebook.tsp_filename (Z.of_nat b)).
  { intros a b Ha Hb Hab E.
    assert (Ca : (a = 1 \/ a = 2 \/ a = 3 \/ a = 4)%nat) by lia.
    assert (Cb : (b = 1 \/ b = 2 \/ b = 3 \/ b = 4)%nat) by lia.
    destruct Ca as [-> | [-> | [-> | ->]]];
      destruct Cb as [-> | [-> | [-> | ->]]];
      try congruence; vm_compute in E; discriminate E. }
  exists w4. split; [|split; [|split]].
  - rewrite cell_48_unfold.
    rewrite (@for_in_step Z (fun k => Notebook.generate k r)
               (Z.of_nat 1) _ w w1 E1).
    rewrite (@for_in_step Z (fun k => Notebook.generate k r)
               (Z.of_nat 2) _ w1 w2 E2).
    rewrite (@for_in_step Z (fun k => Notebook.generate k r)
               (Z.of_nat 3) _ w2 w3 E3).
    rewrite (@for_in_step Z (fun k => Notebook.generate k r)
               (Z.of_nat 4) _ w3 w4 E4).
    reflexivity.
  - intros n Hn.
    assert (Cn : (n = 1 \/ n = 2 \/ n = 3 \/ n = 4)%nat) by lia.
    destruct Cn as [-> | [-> | [-> | ->]]].
    + exists t1. split; [|exact P1].
      rewrite F4, F3, F2 by (apply Hnames; lia). exact D1.
    + exists t2. split; [|exact P2].
      rewrite F4, F3 by (apply Hnames; lia). exact D2.
    + exists t3. split; [|exact P3].
      rewrite F4 by (apply Hnames; lia). exact D3.
    + exists t4. split; [exact D4 | exact P4].
  - intros f Hf. rewrite F4, F3, F2, F1 by (apply Hf; lia). reflexivity.
  - intros r' Hr'. rewrite H4, H3, H2, H1 by exact Hr'. reflexivity.
Qed.

(* ================================================================== *)
(** ** Decimal text of indices *)

Section Decimal.

Import Deserializer.

(** Reading the digits printed for [d] continues the number read so
    far. *)
Lemma digits_string_of_uint (d : Decimal.uint) (acc : Z) (b : bool) :
  d <> Decimal.Nil \/ b = true ->
  digits (NilEmpty.string_of_uint d) acc b
  = Some (acc * 10 ^ Z.of_N (DecimalPos.Unsigned.usize d)
                + Z.of_N (DecimalPos.Unsigned.of_lu (Decimal.rev d)))%Z.
Proof.
  revert acc b.
  induction d as [|d IH|d IH|d IH|d IH|d IH|d IH|d IH|d IH|d IH|d IH];
    intros acc b Hb;
    [ destruct Hb as [Hb| ->]; [congruence|]; simpl; f_equal; lia | .. ];
    cbn [NilEmpty.string_of_uint digits];
    (match goal with
     | |- context [digit_val ?c] =>
         let v := eval vm_compute in (digit_val c) in
         change (digit_val c) with v
     end);
    cbv iota; rewrite (IH _ true (or_intror eq_refl));
    f_equal; unfold Decimal.rev at 2; cbn [Decimal.revapp];
    rewrite DecimalPos.Unsigned.of_lu_revapp;
    cbn [DecimalPos.Unsigned.usize];
    rewrite N2Z.inj_succ, Z.pow_succ_r by apply N2Z.is_nonneg;
    rewrite N2Z.inj_add, N2Z.inj_mul, N2Z.inj_pow;
    cbn [DecimalPos.Unsigned.of_lu]; rewrite ?N.mul_0_r, ?N.add_0_r;
    change (Z.of_N 10) with 10%Z; simpl Z.of_N; ring.
Qed.

Lemma string_of_uint_plain (d : Decimal.uint) :
  plain (NilEmpty.string_of_uint d).
Proof. induction d; simpl; auto. Qed.

Lemma string_of_uint_no_space (d : Decimal.uint) :
  rstrip isspace (NilEmpty.string_of_uint d) = NilEmpty.string_of_uint d.
Proof.
  induction d as [|d IH|d IH|d IH|d IH|d IH|d IH|d IH|d IH|d IH|d IH];
    [reflexivity | ..];
    cbn [NilEmpty.string_of_uint rstrip]; rewrite IH;
    now destruct (NilEmpty.string_of_uint d).
Qed.

Lemma int_string_of_uint (d : Decimal.uint) :
  d <> Decimal.Nil ->
  int (NilEmpty.string_of_uint d) = Ok (Z.of_N (Pos.of_uint d)).
Proof.
  intros Hd. rewrite DecimalPos.Unsigned.of_uint_alt.
  pose proof (@digits_string_of_uint d 0 false (or_introl Hd)) as H.
  rewrite Z.mul_0_l, Z.add_0_l in H.
  unfold int.
  assert (Hl : lstrip isspace (NilEmpty.string_of_uint d)
               = NilEmpty.string_of_uint d)
    by (destruct d; reflexivity).
  rewrite Hl, string_of_uint_no_space.
  destruct d; [congruence | ..]; cbn [NilEmpty.string_of_uint] in *;
    cbv iota beta; rewrite H; reflexivity.
Qed.

(** Printing a non-negative index and reading it back gives the
    index. *)
Lemma int_str_int (z : Z) :
  (0 <= z)%Z -> int (Serializer.str_int z) = Ok z.
Proof.
  intros Hz. destruct z as [|p|p]; [reflexivity | | lia].
  unfold Serializer.str_int, NilZero.string_of_int. cbn [Z.to_int].
  unfold NilZero.string_of_uint.
  pose proof (DecimalPos.Unsigned.to_uint_nonnil p) as Hp.
  destruct (Pos.to_uint p) eqn:E; [congruence | ..];
    rewrite <- E in *; rewrite (int_string_of_uint Hp);
    now rewrite DecimalPos.Unsigned.of_to.
Qed.

Lemma str_int_token (z : Z) : (0 <= z)%Z -> token (Serializer.str_int z).
Proof.
  intros Hz. destruct z as [|p|p]; [| | lia].
  - split; [discriminate | simpl; auto].
  - unfold Serializer.str_int, NilZero.string_of_int. cbn [Z.to_int].
    unfold NilZero.string_of_uint.
    pose proof (DecimalPos.Unsigned.to_uint_nonnil p) as Hp.
    destruct (Pos.to_uint p) eqn:E; [congruence | ..]; rewrite <- E;
      (split; [rewrite E; discriminate | apply string_of_uint_plain]).
Qed.

End Decimal.

(** X18: a tour written in decimal reads back.  When the lines after
    the first hold non-negative indices in decimal, separated by single
    spaces, each line ending in any number of spaces and a newline,
    [get_projs] returns exactly those indices in order, whatever the
    first line says and however the indices are spread over the
    lines. *)
Theorem get_projs_round_trip
        (filename : string) (w : world) (header : string)
        (lines : list (list Z * nat)) :
  single_line header -> lines <> [] ->
  Forall (fun l => fst l <> [] /\ Forall (fun z => (0 <= z)%Z) (fst l))
         lines ->
  disk w filename
  = Some (header ++ nl
          ++ sol_body (map (fun l => (map Serializer.str_int (fst l), snd l))
                           lines))%string ->
  Deserializer.get_projs filename w = Ok (concat (map fst lines)).
Proof.
  intros Hh Hne Hall Hd. unfold Deserializer.get_projs. rewrite Hd.
  rewrite (@pieces_sol_body header _ Hh).
  - rewrite map_map. cbn [fst].
    rewrite <- (map_map fst (map Serializer.str_int)), <- concat_map.
    rewrite mapM_map.
    rewrite (@mapM_Ok_map _ _ _ (fun z => z)); [now rewrite map_id|].
    intros z Hz. apply int_str_int.
    apply in_concat in Hz as [zs [Hzs Hz]].
    apply in_map_iff in Hzs as [l [<- Hl]].
    rewrite Forall_forall in Hall. destruct (Hall l Hl) as [_ Hpos].
    rewrite Forall_forall in Hpos. now apply Hpos.
  - destruct lines; [congruence | discriminate].
  - apply Forall_forall. intros l' Hl'.
    apply in_map_iff in Hl' as [l [<- Hl]]. cbn [fst].
    rewrite Forall_forall in Hall. destruct (Hall l Hl) as [Hnonempty Hpos].
    split.
    + destruct (fst l); [congruence | discriminate].
    + apply Forall_forall. intros t Ht.
      apply in_map_iff in Ht as [z [<- Hz]]. apply str_int_token.
      rewrite Forall_forall in Hpos. now apply Hpos.
Qed.

Lemma get_projs_round_trip_witness :
  Deserializer.get_projs "2q_6s.sol"
    (World (fun _ => [])
       (fun _ => Some ("36" ++ nl
                       ++ sol_body
                            (map (fun l => (map Serializer.str_int (fst l),
                                            snd l))
                                 [([0; 35; 12]%Z, 1%nat);
                                  ([7; 20]%Z, 1%nat)]))%string))
  = Ok [0; 35; 12; 7; 20]%Z.
Proof.
  apply (@get_projs_round_trip "2q_6s.sol" _ "36"
           [([0; 35; 12]%Z, 1%nat); ([7; 20]%Z, 1%nat)]).
  - split; [discriminate | split; [discriminate | exact I]].
  - discriminate.
  - repeat constructor; simpl; try discriminate; lia.
  - reflexivity.
Defined.

(* ================================================================== *)
(** ** Problem serialiser: the lines of the file *)

Section FileLines.

Import Deserializer Serializer.

Open Scope string_scope.

Lemma str_int_token_any (z : Z) : token (str_int z).
Proof.
  assert (Hu : forall d, token (NilZero.string_of_uint d)).
  { intros d. unfold NilZero.string_of_uint.
    destruct d; (split; [discriminate|]);
      first [apply (string_of_uint_plain (Decimal.D0 Decimal.Nil))
            | apply string_of_uint_plain]. }
  unfold str_int, NilZero.string_of_int.
  destruct (Z.to_int z) as [d|d]; [apply Hu|].
  destruct (Hu d) as [_ Hp]. split; [discriminate|]. split; [reflexivity|].
  exact Hp.
Qed.

Lemma row_single_line (row : list Z) :
  single_line (join " " (map str_int row)).
Proof.
  apply single_line_join. apply Forall_forall. intros t Ht.
  apply in_map_iff in Ht as [z [<- _]]. apply str_int_token_any.
Qed.

Lemma concat_empty_cons (x : string) (xs : list string) :
  String.concat EmptyString (x :: xs) = x ++ String.concat EmptyString xs.
Proof.
  destruct xs as [|y ys]; [simpl; now rewrite str_app_nil_r | reflexivity].
Qed.

Lemma readlines_rows (ints : list (list Z)) (rest : string) :
  readlines (String.concat EmptyString
               (map (fun row => (join " " (map str_int row) ++ nl)%string) ints)
             ++ rest)
  = (map (fun row => (join " " (map str_int row) ++ nl)%string) ints
     ++ readlines rest)%list.
Proof.
  induction ints as [|row r IH]; [reflexivity|].
  cbn [map]. rewrite concat_empty_cons, !str_app_assoc.
  rewrite readlines_first_line by apply row_single_line.
  now rewrite IH.
Qed.

(** A problem file line by line: seven header lines, an empty line, one
    line per matrix row, and the [EOF] line. *)
Lemma readlines_tsp_text (name comment : string) (ints : list (list Z)) :
  single_line name -> single_line comment ->
  readlines (tsp_text name comment ints)
  = ([(("NAME : " ++ name) ++ nl)%string;
      ("TYPE : TSP" ++ nl)%string;
      (("COMMENT : " ++ comment) ++ nl)%string;
      (("DIMENSION : " ++ str_int (Z.of_nat (length ints))) ++ nl)%string;
      ("EDGE_WEIGHT_TYPE : EXPLICIT" ++ nl)%string;
      ("EDGE_WEIGHT_FORMAT : FULL_MATRIX" ++ nl)%string;
      ("EDGE_WEIGHT_SECTION" ++ nl)%string;
      nl]
     ++ map (fun row => (join " " (map str_int row) ++ nl)%string) ints
     ++ [("EOF" ++ nl)%string])%list.
Proof.
  intros Hn Hc.
  assert (Hlit : forall s, plain s -> single_line s)
    by apply plain_single_line.
  assert (Hd : single_line (str_int (Z.of_nat (length ints))))
    by (apply plain_single_line, str_int_token_any).
  unfold tsp_text, HEADER. rewrite !str_app_assoc.
  rewrite <- (str_app_assoc "NAME : " name).
  rewrite readlines_first_line
    by (apply single_line_app; [repeat split; discriminate | exact Hn]).
  rewrite readlines_first_line by (repeat split; discriminate).
  rewrite <- (str_app_assoc "COMMENT : " comment).
  rewrite readlines_first_line
    by (apply single_line_app; [repeat split; discriminate | exact Hc]).
  rewrite <- (str_app_assoc "DIMENSION : " (str_int _)).
  rewrite readlines_first_line
    by (apply single_line_app; [repeat split; discriminate | exact Hd]).
  rewrite readlines_first_line by (repeat split; discriminate).
  rewrite readlines_first_line by (repeat split; discriminate).
  rewrite readlines_first_line by (repeat split; discriminate).
  match goal with
  | |- context [readlines (nl ++ ?b)] =>
      change (readlines (nl ++ b)) with (nl :: readlines b)
  end.
  rewrite readlines_rows. reflexivity.
Qed.

End FileLines.

(** X19: the layout of the problem file.  For a file name and a comment
    without line breaks, the name having no extension of a compressed
    format, and a matrix whose doubled entries lie within the [float64]
    range, the file [save_tsp] writes consists of the seven header
    lines, one empty line, one line per matrix row holding the doubled
    entries truncated to integers and separated by single spaces, and
    the final line [EOF]. *)
Theorem save_tsp_file_lines
        (filename comment : string) (a : ref) (w : world) :
  single_line filename -> single_line comment ->
  uncompressed filename -> doubles_fit (heap w a) ->
  exists w' text,
    Serializer.save_tsp filename a comment w = Ok w' /\
    disk w' filename = Some text /\
    Deserializer.readlines text
    = [(("NAME : " ++ filename) ++ nl)%string;
       ("TYPE : TSP" ++ nl)%string;
       (("COMMENT : " ++ comment) ++ nl)%string;
       (("DIMENSION : "
         ++ Serializer.str_int (Z.of_nat (length (heap w a)))) ++ nl)%string;
       ("EDGE_WEIGHT_TYPE : EXPLICIT" ++ nl)%string;
       ("EDGE_WEIGHT_FORMAT : FULL_MATRIX" ++ nl)%string;
       ("EDGE_WEIGHT_SECTION" ++ nl)%string;
       nl]
      ++ map (fun row =>
                (join " " (map (fun x => Serializer.str_int
                                           (Serializer.int_of_float (x * 2)))
                               row) ++ nl)%string)
             (heap w a)
      ++ [("EOF" ++ nl)%string].
Proof.
  intros Hn Hc _ Hfit. eexists. eexists.
  split; [now apply save_tsp_returns|].
  split; [cbn [disk write_file]; now rewrite String.eqb_refl|].
  rewrite (@readlines_tsp_text filename comment _ Hn Hc).
  unfold Serializer.printed, Serializer.imul.
  rewrite !length_map, !map_map. do 2 f_equal.
  apply map_ext. intros row. now rewrite !map_map.
Qed.

Lemma save_tsp_file_lines_witness :
  exists w' text,
    Serializer.save_tsp "1q_6s.tsp" 0%nat "six-state"
      (World (fun _ => [[0; 67.5]; [67.5; 0]]) (fun _ => None)) = Ok w' /\
    disk w' "1q_6s.tsp"%string = Some text /\
    nth 8 (Deserializer.readlines text) EmptyString = ("0 135" ++ nl)%string.
Proof.
  destruct (@save_tsp_file_lines "1q_6s.tsp" "six-state" 0%nat
              (World (fun _ => [[0; 67.5]; [67.5; 0]]) (fun _ => None)))
    as [w' [text [E [Hd Hl]]]].
  - repeat split; discriminate.
  - repeat split; discriminate.
  - reflexivity.
  - repeat constructor; vm_compute; discriminate.
  - exists w', text. split; [exact E|]. split; [exact Hd|].
    rewrite Hl. reflexivity.
Defined.

Lemma cell_48_writes_four_files_witness :
  exists w',
    Notebook.cell_48 0%nat (World (fun _ => []) (fun _ => None)) = Ok w' /\
    exists text, disk w' "3q_6s.tsp"%string = Some text /\
                 problem_file 3 text.
Proof.
  destruct (cell_48_writes_four_files 0%nat
              (World (fun _ => []) (fun _ => None))) as [w' [E [H _]]].
  exists w'. split; [exact E|]. apply (H 3%nat). lia.
Defined.

(* ================================================================== *)
(** ** Tours on the cost matrix of the configuration space

    The costs of the configuration space are whole multiples of 22.5, at
    most 90.  Sums of fewer than [2^40] of them are exactly
    representable [float64] numbers, so the code's rounded sums are the
    exact sums for tours of such lengths, in whatever order the edges
    are added. *)

Section PipelineTours.

Import Builder CostMatrix Evaluator Serializer Notebook.

Lemma pipeline_arity (n : nat) (angles : matrix) :
  (1 <= n)%nat ->
  nqubit_angles ANGLES_6s (Z.of_nat n) = Ok angles ->
  arity (2 * n) angles /\ length angles = (6 ^ n)%nat.
Proof.
  intros Hn EA.
  assert (Hbase : arity 2 ANGLES_6s) by (repeat constructor).
  rewrite (@nqubit_angles_power 2 n ANGLES_6s Hn) in EA;
    [|discriminate | exact Hbase].
  injection EA as <-. split.
  - apply Forall_forall. intros s Hs.
    exact (@power_row_length 2 n _ s Hbase Hs).
  - now rewrite length_map, product_rec_length.
Qed.

Lemma sigma_Z_doubles (n : nat) (f : nat -> Z) (g : nat -> Q) :
  (forall k, (k < n)%nat -> inject_Z (f k) == g k * 2) ->
  inject_Z (sigma_Z n f) == sigma n g * 2.
Proof.
  induction n as [|n IH]; intros H; simpl.
  - reflexivity.
  - rewrite inject_Z_plus, IH, (H n) by (intros; try apply H; lia). ring.
Qed.

Lemma tour_sum_Z_doubles (N : nat) (M : matrix) (ints : list (list Z))
      (t : list Z) :
  (forall i j, (i < N)%nat -> (j < N)%nat ->
               inject_Z (entry_Z ints i j) == entry M i j * 2) ->
  t <> [] -> (forall i, In i t -> (0 <= i < Z.of_nat N)%Z) ->
  inject_Z (tour_sum_Z ints t) == tour_sum M t * 2.
Proof.
  intros He Hne Hin.
  assert (Hlen : (0 < length t)%nat)
    by (destruct t; [congruence | simpl; lia]).
  assert (Hat : forall k, (k < length t)%nat ->
                          (Z.to_nat (nth k t 0%Z) < N)%nat).
  { intros k Hk. specialize (Hin _ (nth_In t 0%Z Hk)). lia. }
  unfold tour_sum_Z, tour_sum. cbv zeta.
  rewrite inject_Z_plus, Qmult_plus_distr_l. apply Qplus_comp.
  - apply sigma_Z_doubles. intros k Hk. apply He; apply Hat; lia.
  - apply He; apply Hat; lia.
Qed.

Lemma printed_doubles_exact (N : nat) (M : matrix) (i j : nat) (z : Z) :
  square N M -> (i < N)%nat -> (j < N)%nat ->
  entry M i j == inject_Z z * 22.5 ->
  inject_Z (entry_Z (printed (imul M 2)) i j) == entry M i j * 2.
Proof.
  intros [HN Hrows] Hi Hj Ez. rewrite Forall_forall in Hrows.
  assert (Hlen : length (nth i M []) = N)
    by (apply Hrows; apply nth_In; now rewrite HN).
  assert (E : entry M i j * 2 == inject_Z (45 * z))
    by (rewrite inject_Z_mult, Ez; change (inject_Z 45) with 45; lra).
  unfold entry_Z. rewrite printed_nth.
  - rewrite entry_imul_in_range by (rewrite ?HN, ?Hlen; assumption).
    rewrite (int_of_float_exact E). now rewrite E.
  - unfold imul. now rewrite length_map, HN.
  - unfold imul. rewrite (nth_map_in _ _ [] []) by (now rewrite HN).
    now rewrite length_map, Hlen.
Qed.

End PipelineTours.

(** X1: a tour of the configuration space denotes a cycle.  On the cost
    matrix of the [n]-qubit space, [n >= 1], moving the first index of a
    tour of fewer than [2^40] indices to its end changes nothing:
    [cycle_length] raises for both tours or returns the same length for
    both. *)
Theorem cycle_length_rotate (n : nat) :
  (1 <= n)%nat ->
  exists angles M,
    Builder.nqubit_angles Builder.ANGLES_6s (Z.of_nat n) = Ok angles /\
    CostMatrix.adj_mat angles = Ok M /\
    forall (x : Z) (t : list Z),
      (len t < 2 ^ 40)%Z ->
      agree (Evaluator.cycle_length M (x :: t))
            (Evaluator.cycle_length M (t ++ [x])).
Proof.
  intros Hn. destruct (pipeline_matrix Hn) as [angles [M [EA [EM _]]]].
  exists angles, M. split; [exact EA|]. split; [exact EM|].
  intros x t _. apply exact_sum_rotation.
Qed.

Lemma cycle_length_rotate_witness :
  exists angles M,
    Builder.nqubit_angles Builder.ANGLES_6s 1 = Ok angles /\
    CostMatrix.adj_mat angles = Ok M /\
    agree (Evaluator.cycle_length M [0; 5; 3]%Z)
          (Evaluator.cycle_length M [5; 3; 0]%Z).
Proof.
  destruct (@cycle_length_rotate 1) as [angles [M [EA [EM H]]]]; [lia|].
  exists angles, M. split; [exact EA|]. split; [exact EM|].
  apply (H 0%Z [5; 3]%Z). reflexivity.
Defined.

(** X2: on the cost matrix of the [n]-qubit space, [n >= 1], the
    direction of travel does not matter: for a non-empty tour of fewer
    than [2^40] indices in [0, 6^n), [cycle_length] returns the same
    length for the tour and for the tour reversed. *)
Theorem cycle_length_reverse (n : nat) (t : list Z) :
  (1 <= n)%nat -> t <> [] -> (len t < 2 ^ 40)%Z ->
  (forall i, In i t -> (0 <= i < Z.of_nat (6 ^ n))%Z) ->
  exists angles M v v',
    Builder.nqubit_angles Builder.ANGLES_6s (Z.of_nat n) = Ok angles /\
    CostMatrix.adj_mat angles = Ok M /\
    Evaluator.cycle_length M t = Ok v /\
    Evaluator.cycle_length M (rev t) = Ok v' /\ v == v'.
Proof.
  intros Hn Hne _ Hin.
  destruct (pipeline_matrix Hn) as [angles [M [EA [EM [Hsq H]]]]].
  assert (Hsym : symmetric (6 ^ n) M)
    by (intros i j Hi Hj; apply (H i j Hi Hj)).
  destruct (exact_sum_reversal Hsq Hsym Hne Hin)
    as [v [v' [E [E' Hv]]]].
  exists angles, M, v, v'. repeat split; assumption.
Qed.

Lemma cycle_length_reverse_witness :
  exists angles M v v',
    Builder.nqubit_angles Builder.ANGLES_6s 1 = Ok angles /\
    CostMatrix.adj_mat angles = Ok M /\
    Evaluator.cycle_length M [0; 5; 3; 4; 1; 2]%Z = Ok v /\
    Evaluator.cycle_length M (rev [0; 5; 3; 4; 1; 2]%Z) = Ok v' /\ v == v'.
Proof.
  apply (@cycle_length_reverse 1 [0; 5; 3; 4; 1; 2]%Z).
  - lia.
  - discriminate.
  - reflexivity.
  - intros i Hi. simpl in Hi. simpl. intuition lia.
Defined.

(** X3: what the solver is given ranks tours as the costs do.  In the
    body of the loop of cell 48, for [n >= 1], [save_tsp] leaves the
    array [adjacency_matrix] doubled, so that [cycle_length] on it
    returns twice the length of every tour (and raises where the cost
    matrix raises); and the integers of the written problem file give
    every non-empty tour of indices in [0, 6^n) exactly twice the sum of
    its costs, so that of two such tours the one shorter by the file is
    the one shorter by the costs. *)
Theorem save_tsp_doubles_cycle_length (n : nat) (r : ref) (w : world) :
  (1 <= n)%nat ->
  exists angles M w' ints,
    Builder.nqubit_angles Builder.ANGLES_6s (Z.of_nat n) = Ok angles /\
    CostMatrix.adj_mat angles = Ok M /\
    Notebook.generate (Z.of_nat n) r w = Ok w' /\
    disk w' (Notebook.tsp_filename (Z.of_nat n))
    = Some (tsp_text (Notebook.tsp_filename (Z.of_nat n))
                     (Notebook.tsp_comment (Z.of_nat n)) ints) /\
    (forall t, scaled 2 (Evaluator.cycle_length M t)
                        (Evaluator.cycle_length (heap w' r) t)) /\
    (forall t, t <> [] ->
               (forall i, In i t -> (0 <= i < Z.of_nat (6 ^ n))%Z) ->
               inject_Z (tour_sum_Z ints t) == tour_sum M t * 2) /\
    (forall t1 t2,
       t1 <> [] -> (forall i, In i t1 -> (0 <= i < Z.of_nat (6 ^ n))%Z) ->
       t2 <> [] -> (forall i, In i t2 -> (0 <= i < Z.of_nat (6 ^ n))%Z) ->
       ((tour_sum_Z ints t1 <= tour_sum_Z ints t2)%Z <->
        tour_sum M t1 <= tour_sum M t2)).
Proof.
  intros Hn.
  destruct (pipeline_matrix Hn) as [angles [M [EA [EM [Hsq H]]]]].
  assert (Hfile : forall t, t <> [] ->
            (forall i, In i t -> (0 <= i < Z.of_nat (6 ^ n))%Z) ->
            inject_Z (tour_sum_Z (Serializer.printed (Serializer.imul M 2)) t)
            == tour_sum M t * 2).
  { intros t Hne Hin.
    apply (@tour_sum_Z_doubles (6 ^ n)); [|exact Hne|exact Hin].
    intros i j Hi Hj. destruct (H i j Hi Hj) as [[z [_ Ez]] _].
    exact (printed_doubles_exact Hsq Hi Hj Ez). }
  exists angles, M. eexists. eexists.
  split; [exact EA|]. split; [exact EM|].
  split; [exact (generate_explicit r w Hn EA EM)|].
  split; [cbn [disk write_file]; now rewrite String.eqb_refl|].
  split; [|split].
  - intros t. cbn [heap write_file store]. rewrite Nat.eqb_refl.
    apply cycle_length_imul.
  - exact Hfile.
  - intros t1 t2 Hne1 Hin1 Hne2 Hin2.
    pose proof (Hfile t1 Hne1 Hin1) as E1.
    pose proof (Hfile t2 Hne2 Hin2) as E2.
    rewrite Zle_Qle, E1, E2. split; intros Hle; lra.
Qed.

Lemma save_tsp_doubles_cycle_length_witness :
  exists angles M w' ints,
    Builder.nqubit_angles Builder.ANGLES_6s 1 = Ok angles /\
    CostMatrix.adj_mat angles = Ok M /\
    Notebook.generate 1 0%nat (World (fun _ => []) (fun _ => None)) = Ok w' /\
    disk w' "1q_6s.tsp"%string
    = Some (tsp_text "1q_6s.tsp" "Wave plate tomography, 1 qubits, six-state"
                     ints) /\
    scaled 2 (Evaluator.cycle_length M [0; 5; 3; 4; 1; 2]%Z)
             (Evaluator.cycle_length (heap w' 0%nat) [0; 5; 3; 4; 1; 2]%Z) /\
    inject_Z (tour_sum_Z ints [0; 5; 3; 4; 1; 2]%Z)
    == tour_sum M [0; 5; 3; 4; 1; 2]%Z * 2.
Proof.
  destruct (@save_tsp_doubles_cycle_length 1 0%nat
              (World (fun _ => []) (fun _ => None)))
    as [angles [M [w' [ints [EA [EM [EG [Hd [Hs [Hi _]]]]]]]]]]; [lia|].
  exists angles, M, w', ints.
  split; [exact EA|]. split; [exact EM|]. split; [exact EG|].
  split; [exact Hd|]. split; [apply Hs|].
  apply Hi; [discriminate|].
  intros i Hin. simpl in Hin. simpl. intuition lia.
Defined.

(** X4: the costs of the configuration space are distances.  On the cost
    matrix of the [n]-qubit space, [n >= 1], every entry is non-negative
    and the triangle inequality holds:
    [cost[i][j] <= cost[i][k] + cost[k][j]]. *)
Theorem adj_mat_triangle (n : nat) :
  (1 <= n)%nat ->
  exists angles M,
    Builder.nqubit_angles Builder.ANGLES_6s (Z.of_nat n) = Ok angles /\
    CostMatrix.adj_mat angles = Ok M /\
    (forall i j, (i < 6 ^ n)%nat -> (j < 6 ^ n)%nat -> 0 <= entry M i j) /\
    (forall i j k, (i < 6 ^ n)%nat -> (j < 6 ^ n)%nat -> (k < 6 ^ n)%nat ->
       entry M i j <= entry M i k + entry M k j).
Proof.
  intros Hn.
  destruct (pipeline_matrix Hn) as [angles [M [EA [EM _]]]].
  destruct (pipeline_arity Hn EA) as [Har Hlen].
  destruct (@exact_triangle_inequality (2 * n) angles) as [M' [EM' [H0 H3]]];
    [lia | exact Har |].
  rewrite EM in EM'. injection EM' as <-. rewrite Hlen in *.
  exists angles, M. split; [exact EA|]. split; [exact EM|].
  split; assumption.
Qed.

Lemma adj_mat_triangle_witness :
  exists angles M,
    Builder.nqubit_angles Builder.ANGLES_6s 1 = Ok angles /\
    CostMatrix.adj_mat angles = Ok M /\
    entry M 1 3 <= entry M 1 4 + entry M 4 3.
Proof.
  destruct (@adj_mat_triangle 1) as [angles [M [EA [EM [_ H]]]]]; [lia|].
  exists angles, M. split; [exact EA|]. split; [exact EM|].
  apply H; simpl; lia.
Defined.

(* ================================================================== *)
(** ** Tour parser: the fields of a solution file *)

Section Fields.

Import Deserializer.

Open Scope string_scope.

Lemma single_line_join_plain (fs : list string) :
  Forall plain fs -> single_line (join " " fs).
Proof.
  induction 1 as [|t r Hp _ IH]; [exact I|].
  destruct r as [|t' r']; [now apply plain_single_line|].
  change (join " " (t :: t' :: r')) with (t ++ " " ++ join " " (t' :: r')).
  apply single_line_app; [now apply plain_single_line|].
  split; [discriminate | exact IH].
Qed.

Lemma readlines_fields (lines : list (list string * nat)) :
  Forall (fun l => Forall plain (fst l)) lines ->
  readlines (sol_body lines) = map sol_line lines.
Proof.
  induction 1 as [|[fs k] r Hfs _ IH]; [reflexivity|].
  simpl sol_body. unfold sol_line at 1. simpl fst. simpl snd.
  rewrite str_app_assoc, str_app_assoc, <- (str_app_assoc (join " " fs)).
  rewrite readlines_first_line
    by (apply single_line_app;
        [now apply single_line_join_plain | apply single_line_spaces]).
  rewrite IH. simpl map. unfold sol_line at 2. simpl fst. simpl snd.
  now rewrite <- !str_app_assoc.
Qed.

(** Fields that end with a non-empty one lose nothing when the line is
    stripped on the right. *)
Lemma join_fields_fixed (fs : list string) :
  Forall plain fs -> last fs EmptyString <> EmptyString ->
  rstrip space_or_newline (join " " fs) = join " " fs /\
  join " " fs <> EmptyString.
Proof.
  induction 1 as [|t r Hp _ IH]; intros Hlast; [now destruct Hlast|].
  destruct r as [|t' r'].
  - simpl in *. split; [now apply rstrip_plain | exact Hlast].
  - destruct (IH Hlast) as [IH1 IH2].
    change (join " " (t :: t' :: r')) with (t ++ " " ++ join " " (t' :: r')).
    split.
    + rewrite <- str_app_assoc. now apply rstrip_app_fixed.
    + intros E. destruct t; discriminate E.
Qed.

Lemma strip_fields (fs : list string) :
  Forall plain fs ->
  fs = [EmptyString] \/ last fs EmptyString <> EmptyString ->
  rstrip space_or_newline (join " " fs) = join " " fs.
Proof.
  intros Hp [-> | Hl]; [reflexivity | now apply join_fields_fixed].
Qed.

Lemma flat_map_split_plain (fs : list string) :
  Forall plain fs -> flat_map (split " ") fs = fs.
Proof.
  induction 1 as [|t r Ht _ IH]; [reflexivity|].
  simpl. now rewrite (split_plain _ Ht), IH.
Qed.

Lemma split_fields (fs : list string) :
  fs <> [] -> Forall plain fs -> split " " (join " " fs) = fs.
Proof.
  intros Hne Hp. destruct fs as [|x xs]; [congruence|].
  rewrite split_join. now apply flat_map_split_plain.
Qed.

(** The pieces of a solution body are its fields, the empty ones
    included. *)
Lemma pieces_fields (header : string) (lines : list (list string * nat)) :
  single_line header -> lines <> [] ->
  Forall (fun l => Forall plain (fst l) /\
                   (fst l = [EmptyString] \/
                    last (fst l) EmptyString <> EmptyString)) lines ->
  pieces (header ++ nl ++ sol_body lines) = concat (map fst lines).
Proof.
  intros Hh Hne Hall.
  rewrite (@pieces_skip_header header _ Hh).
  rewrite readlines_fields
    by (apply (Forall_impl _ (fun l H => proj1 H) Hall)).
  rewrite map_map.
  assert (Hstrip : map (fun l => rstrip space_or_newline (sol_line l)) lines
                   = map (fun l => join " " (fst l)) lines).
  { apply map_ext_in. intros l Hl. rewrite Forall_forall in Hall.
    destruct (Hall l Hl) as [H1 H2]. unfold sol_line.
    rewrite rstrip_blank_tail. now apply strip_fields. }
  rewrite Hstrip. clear Hstrip.
  assert (Hsj : forall ls, ls <> [] ->
                  split " " (join " " ls) = flat_map (split " ") ls)
    by (intros [|x xs] H; [congruence | apply split_join]).
  rewrite Hsj by (destruct lines; [congruence | discriminate]).
  rewrite flat_map_concat_map, map_map. f_equal.
  apply map_ext_in. intros l Hl.
  rewrite Forall_forall in Hall. destruct (Hall l Hl) as [H1 H2].
  apply split_fields; [|exact H1].
  destruct H2 as [-> | H2]; [discriminate|].
  intros E. rewrite E in H2. now apply H2.
Qed.

Lemma occurs_lstrip (p : ascii -> bool) (c : ascii) (s : string) :
  p c = false -> occurs c s -> occurs c (lstrip p s).
Proof.
  intros Hc. induction s as [|x r IH]; [trivial|].
  intros H. simpl. destruct (p x) eqn:Hx; [|exact H].
  destruct H as [->|H]; [congruence | now apply IH].
Qed.

Lemma occurs_rstrip (p : ascii -> bool) (c : ascii) (s : string) :
  p c = false -> occurs c s -> occurs c (rstrip p s).
Proof.
  intros Hc. induction s as [|x r IH]; [trivial|].
  intros [->|H]; simpl.
  - destruct (rstrip p r); [rewrite Hc|]; now left.
  - specialize (IH H). destruct (rstrip p r); [destruct IH | now right].
Qed.

Lemma foreign_spec (c : ascii) :
  foreign c = true ->
  isspace c = false /\ digit_val c = None /\
  c <> "+"%char /\ c <> "-"%char /\ c <> "_"%char.
Proof.
  destruct c as [b0 b1 b2 b3 b4 b5 b6 b7].
  destruct b0, b1, b2, b3, b4, b5, b6, b7; intros H; vm_compute in H;
    first [ discriminate H
          | repeat split; first [reflexivity | discriminate] ].
Qed.

(** A character that no integer literal contains stops the digits. *)
Lemma digits_foreign (c : ascii) (s : string) :
  foreign c = true -> occurs c s -> forall acc b, digits s acc b = None.
Proof.
  intros Hf. destruct (foreign_spec _ Hf) as [_ [Hd [_ [_ Hu]]]].
  induction s as [|x r IH]; [intros []|].
  intros H acc b. cbn [digits].
  destruct (digit_val x) as [d|] eqn:Ex.
  - destruct H as [->|H]; [congruence | now apply IH].
  - destruct (Ascii.eqb x "_" && b) eqn:E; [|reflexivity].
    destruct H as [->|H]; [|now apply IH].
    apply andb_prop in E as [E _]. apply Ascii.eqb_eq in E. congruence.
Qed.

Lemma int_foreign (c : ascii) (s : string) :
  foreign c = true -> occurs c s -> int s = Raise ValueError.
Proof.
  intros Hf Ho.
  destruct (foreign_spec _ Hf) as [Hs [_ [Hplus [Hminus _]]]].
  pose proof (occurs_rstrip _ _ _ Hs (occurs_lstrip _ _ _ Hs Ho)) as Ht.
  unfold int. cbv zeta.
  set (t := rstrip isspace (lstrip isspace s)) in *. clearbody t.
  destruct t as [|a r]; [destruct Ht|].
  assert (H1 : forall acc b, digits (String a r) acc b = None)
    by (now apply (digits_foreign _ _ Hf)).
  assert (H2 : a = "+"%char \/ a = "-"%char -> digits r 0 false = None).
  { intros Ha. apply (digits_foreign _ _ Hf).
    destruct Ht as [->|Ht]; [|exact Ht]. destruct Ha; congruence. }
  destruct a as [b0 b1 b2 b3 b4 b5 b6 b7].
  destruct b0, b1, b2, b3, b4, b5, b6, b7; cbv beta iota;
    first [ rewrite H1; reflexivity
          | rewrite (H2 (or_introl eq_refl)); reflexivity
          | rewrite (H2 (or_intror eq_refl)); reflexivity ].
Qed.

End Fields.

(** C8, amended: [get_projs] discards the first line whatever it holds.
    When every later line holds fields separated by single spaces, then
    any number of spaces and a newline (a field is free of spaces and
    newlines, and empty where two spaces are adjacent, where the line
    starts with a space and where the line is blank),
    the fields of all lines are converted in order with [int]: the
    indices are returned when the fields are decimal numerals of
    non-negative integers, and [ValueError] is raised when a field is
    empty or holds a character that is neither a digit, a sign, an
    underscore nor white space.  The number of indices is not compared
    with the dimension on the first line, nor with any other. *)
Theorem get_projs_parses_after_header
        (filename : string) (w : world) (header : string)
        (lines : list (list string * nat)) :
  single_line header -> lines <> [] ->
  Forall (fun l => Forall plain (fst l) /\
                   (fst l = [EmptyString] \/
                    last (fst l) EmptyString <> EmptyString)) lines ->
  disk w filename = Some (header ++ nl ++ sol_body lines)%string ->
  let fields := concat (map fst lines) in
  Deserializer.get_projs filename w = mapM Deserializer.int fields /\
  (forall zs, Forall (fun z => (0 <= z)%Z) zs ->
              fields = map Serializer.str_int zs ->
              Deserializer.get_projs filename w = Ok zs) /\
  (In EmptyString fields ->
   Deserializer.get_projs filename w = Raise ValueError) /\
  (forall s c, In s fields -> occurs c s -> foreign c = true ->
               Deserializer.get_projs filename w = Raise ValueError).
Proof.
  intros Hh Hne Hall Hd fields.
  assert (E : Deserializer.get_projs filename w
              = mapM Deserializer.int fields).
  { unfold Deserializer.get_projs. rewrite Hd.
    now rewrite (@pieces_fields header lines Hh Hne Hall). }
  rewrite E. split; [reflexivity|]. split; [|split].
  - intros zs Hzs ->. rewrite mapM_map.
    rewrite (@mapM_Ok_map _ _ _ (fun z => z)); [now rewrite map_id|].
    intros z Hz. apply int_str_int.
    rewrite Forall_forall in Hzs. now apply Hzs.
  - intros Hin.
    exact (@mapM_Raise_In _ _ Deserializer.int ValueError fields
             EmptyString ValueError int_Raise Hin eq_refl).
  - intros s c Hin Hc Hf.
    exact (@mapM_Raise_In _ _ Deserializer.int ValueError fields
             s ValueError int_Raise Hin (int_foreign _ _ Hf Hc)).
Qed.

Lemma get_projs_parses_after_header_witness :
  Deserializer.get_projs "1q_6s.sol"
    (World (fun _ => [])
       (fun _ => Some ("6" ++ nl ++ "0 5 3 " ++ nl ++ "4 1 2 " ++ nl)%string))
  = Ok [0; 5; 3; 4; 1; 2]%Z
  /\
  Deserializer.get_projs "1q_6s.sol"
    (World (fun _ => [])
       (fun _ => Some ("6" ++ nl ++ "0  5" ++ nl)%string))
  = Raise ValueError
  /\
  Deserializer.get_projs "1q_6s.sol"
    (World (fun _ => [])
       (fun _ => Some ("6" ++ nl ++ "0 x5" ++ nl)%string))
  = Raise ValueError.
Proof.
  assert (H6 : single_line "6") by (split; [discriminate | exact I]).
  split; [|split].
  - refine (proj1 (proj2 (@get_projs_parses_after_header "1q_6s.sol"
                     (World (fun _ => [])
                        (fun _ => Some ("6" ++ nl ++ "0 5 3 " ++ nl
                                        ++ "4 1 2 " ++ nl)%string))
                     "6"
                     [(["0"; "5"; "3"]%string, 1%nat);
                      (["4"; "1"; "2"]%string, 1%nat)]
                     H6 _ _ eq_refl)) [0; 5; 3; 4; 1; 2]%Z _ eq_refl).
    + discriminate.
    + repeat (apply Forall_cons;
              [split;
               [repeat (apply Forall_cons; [repeat split|]); apply Forall_nil
               | right; discriminate] |]); apply Forall_nil.
    + repeat (apply Forall_cons; [discriminate|]). apply Forall_nil.
  - refine (proj1 (proj2 (proj2 (@get_projs_parses_after_header "1q_6s.sol"
                     (World (fun _ => [])
                        (fun _ => Some ("6" ++ nl ++ "0  5" ++ nl)%string))
                     "6"
                     [(["0"; EmptyString; "5"]%string, 0%nat)]
                     H6 _ _ eq_refl))) _).
    + discriminate.
    + repeat (apply Forall_cons;
              [split;
               [repeat (apply Forall_cons; [repeat split|]); apply Forall_nil
               | right; discriminate] |]); apply Forall_nil.
    + right. left. reflexivity.
  - refine (proj2 (proj2 (proj2 (@get_projs_parses_after_header "1q_6s.sol"
                     (World (fun _ => [])
                        (fun _ => Some ("6" ++ nl ++ "0 x5" ++ nl)%string))
                     "6"
                     [(["0"; "x5"]%string, 0%nat)]
                     H6 _ _ eq_refl))) "x5"%string "x"%char _ _ eq_refl).
    + discriminate.
    + repeat (apply Forall_cons;
              [split;
               [repeat (apply Forall_cons; [repeat split|]); apply Forall_nil
               | right; discriminate] |]); apply Forall_nil.
    + right. left. reflexivity.
    + left. reflexivity.
Defined.
